(** * LRUCache.cpp: a shallow embedding of the LRU cache and its two-way list

    The C++ program keeps its entries in heap-allocated [TwoWayListNode]s
    linked by raw [_prev]/[_next] pointers, and indexes them with a
    [std::unordered_map<int, TwoWayListNode*>].  The embedding keeps that
    shape: a heap of nodes addressed by pointers, a list object holding
    [_size], [_front] and [_back], and a cache object holding [_capacity],
    the list and the index.  Every member function is translated statement
    by statement; a dereference of a null or dangling pointer has no defined
    result.

    Modelling choices.  Keys and values are [int]s that are only stored and
    compared, so they are plain [Z]; [_size] is a [size_t] and [_capacity]
    an [int], with the wrap-around and the conversion written out.  The two
    places of [put] that ask the allocator for memory take a boolean that
    says whether the request succeeds: [new TwoWayListNode] in
    [add_to_front], and the hash node that [_lru_cache_map[key]] inserts
    for a missing key.  [find] and [erase] on an [int]-keyed map do not
    throw.  The diagnostic lines written to [cout] are not modelled. *)

From Stdlib Require Import ZArith Lia.
From stdpp Require Import numbers gmap fin_maps fin_sets option list strings pretty.

Local Open Scope Z_scope.

(** ** Data model *)

(** A non-null [TwoWayListNode*]; [nullptr] is [None] of [option addr]. *)
Abbreviation addr := positive.

(** [constexpr auto KEY_NOT_FOUND_RET_VAL = -1;] *)
Definition KEY_NOT_FOUND_RET_VAL : Z := -1.

(** [struct TwoWayListNode] *)
Record TwoWayListNode : Type := mkNode {
  _key : Z;
  _value : Z;
  _prev : option addr;
  _next : option addr
}.

(** The constructor [TwoWayListNode(int key, int value)]. *)
Definition new_TwoWayListNode (key value : Z) : TwoWayListNode :=
  mkNode key value None None.

(** The free store, restricted to the nodes the program allocates. *)
Abbreviation heap := (gmap positive TwoWayListNode).

(** The data members of [class LRUTwoWayList]; [_size] is a [size_t]. *)
Record LRUTwoWayList : Type := mkList {
  _size : Z;
  _front : option addr;
  _back : option addr
}.

(** The data members of [class LRUCache]. *)
Record LRUCache : Type := mkCache {
  _capacity : Z;
  _lru_list : LRUTwoWayList;
  _lru_cache_map : gmap Z positive
}.

(** What can be thrown.  [InvalidCapacity] is the class of the source;
    [bad_alloc] comes from an allocation; [std_exception] is what
    [throw except;] throws when [except] is a [std::exception&]: a copy of
    static type [std::exception]. *)
Inductive exn : Type := InvalidCapacity | bad_alloc | std_exception.

(** How a member function ends in state [S]: it returns a value, it throws,
    or its behaviour is undefined (null or dangling dereference). *)
Inductive outcome (S A : Type) : Type :=
| Returns (a : A) (s : S)
| Throws (e : exn) (s : S)
| Undefined.
Arguments Returns {S A} a s.
Arguments Throws {S A} e s.
Arguments Undefined {S A}.

(** ** Machine integers *)

Definition INT_MIN : Z := - 2 ^ 31.
Definition INT_MAX : Z := 2 ^ 31 - 1.
Definition is_int (z : Z) : Prop := INT_MIN <= z <= INT_MAX.

(** Conversion of an [int] to [size_t] (64 bits), as in the comparison
    [_lru_list.size() == _capacity] and in [capacity()]. *)
Definition to_size_t (z : Z) : Z := z mod 2 ^ 64.

(** ** Field updates through a pointer *)

Definition set_key (k : Z) (n : TwoWayListNode) : TwoWayListNode :=
  mkNode k (_value n) (_prev n) (_next n).
Definition set_value (v : Z) (n : TwoWayListNode) : TwoWayListNode :=
  mkNode (_key n) v (_prev n) (_next n).
Definition set_prev (p : option addr) (n : TwoWayListNode) : TwoWayListNode :=
  mkNode (_key n) (_value n) p (_next n).
Definition set_next (q : option addr) (n : TwoWayListNode) : TwoWayListNode :=
  mkNode (_key n) (_value n) (_prev n) q.

Definition set_front (p : option addr) (L : LRUTwoWayList) : LRUTwoWayList :=
  mkList (_size L) p (_back L).
Definition set_back (p : option addr) (L : LRUTwoWayList) : LRUTwoWayList :=
  mkList (_size L) (_front L) p.

(** [*p]: reading through a pointer; no result for null or a freed node. *)
Definition deref (h : heap) (p : option addr) : option TwoWayListNode :=
  a ← p; h !! a.

(** [p->field = x]: a write through a pointer, by the field update [f]. *)
Definition store (f : TwoWayListNode → TwoWayListNode) (p : option addr)
    (h : heap) : option heap :=
  a ← p; n ← h !! a; Some (<[a := f n]> h).
Arguments store : simpl never.

(** ** LRUTwoWayList *)

(** [LRUTwoWayList()] *)
Definition LRUTwoWayList_new : LRUTwoWayList := mkList 0 None None.

(** The pointers the list object and the nodes of the heap hold, live or
    stale. *)
Definition pointer_set (p : option addr) : gset positive :=
  match p with
  | Some a => {[ a ]}
  | None => ∅
  end.

Definition held_pointers (L : LRUTwoWayList) (h : heap) : gset positive :=
  pointer_set (_front L) ∪ pointer_set (_back L) ∪
  map_fold (λ _ n acc, pointer_set (_prev n) ∪ pointer_set (_next n) ∪ acc)
           ∅ h.

(** [new TwoWayListNode(key, value)]: either the allocation fails, or an
    address that is not in use now holds the node.  A pointer to a freed
    node stays invalid for good, whatever address the allocator hands out
    next, so the new address is taken outside the nodes in use and outside
    every pointer the list or a node still holds: a stale pointer never
    comes to designate the new node, and a dereference of it has no
    defined result. *)
Definition fresh_addr (L : LRUTwoWayList) (h : heap) : positive :=
  fresh (dom h ∪ held_pointers L h).

Definition new_node (ok : bool) (key value : Z) (L : LRUTwoWayList) (h : heap)
    : option (positive * heap) :=
  if ok
  then Some (fresh_addr L h,
             <[fresh_addr L h := new_TwoWayListNode key value]> h)
  else None.

(** [add_to_front]: [ok] tells whether [new] succeeds.  On failure nothing
    has been touched yet. *)
Definition add_to_front (ok : bool) (key value : Z) (L : LRUTwoWayList)
    (h : heap) : outcome (LRUTwoWayList * heap) positive :=
  match new_node ok key value L h with
  | None => Throws bad_alloc (L, h)
  | Some (nn, h0) =>
      let linked :=
        match _front L, _back L with
        | None, None => Some (mkList (_size L) (Some nn) (Some nn), h0)
        | _, _ =>
            h1 ← store (set_next (_front L)) (Some nn) h0;
            h2 ← store (set_prev (Some nn)) (_front L) h1;
            Some (set_front (Some nn) L, h2)
        end in
      match linked with
      | None => Undefined
      | Some (L1, h1) =>
          Returns nn (mkList (to_size_t (_size L1 + 1)) (_front L1) (_back L1), h1)
      end
  end.

(** [move_to_front] *)
Definition move_to_front (given_node : positive) (L : LRUTwoWayList)
    (h : heap) : option (LRUTwoWayList * heap) :=
  if decide (_front L = Some given_node) then Some (L, h)
  else
    '(L1, h1) ←
      (if decide (_back L = Some given_node) then
         b ← deref h (_back L);
         let L1 := set_back (_prev b) L in
         h1 ← store (set_next None) (_back L1) h;
         Some (L1, h1)
       else
         g ← h !! given_node;
         h1 ← store (set_next (_next g)) (_prev g) h;
         g1 ← h1 !! given_node;
         h2 ← store (set_prev (_prev g1)) (_next g1) h1;
         Some (L, h2));
    h2 ← store (set_next (_front L1)) (Some given_node) h1;
    h3 ← store (set_prev None) (Some given_node) h2;
    h4 ← store (set_prev (Some given_node)) (_front L1) h3;
    Some (set_front (Some given_node) L1, h4).

(** [front()], [back()], [size()] of the list. *)
Definition list_front (L : LRUTwoWayList) : option addr := _front L.
Definition list_back (L : LRUTwoWayList) : option addr := _back L.
Definition list_size (L : LRUTwoWayList) : Z := _size L.

(** [constexpr bool empty() const noexcept { return nullptr == _back; }] *)
Definition empty (L : LRUTwoWayList) : bool := bool_decide (None = _back L).

(** ** LRUCache *)

(** [LRUCache(int capacity)] *)
Definition construct (capacity : Z) : exn + LRUCache :=
  if decide (0 >= capacity) then inl InvalidCapacity
  else inr (mkCache capacity LRUTwoWayList_new ∅).

Definition with_list (c : LRUCache) (L : LRUTwoWayList) : LRUCache :=
  mkCache (_capacity c) L (_lru_cache_map c).
Definition with_map (c : LRUCache) (m : gmap Z positive) : LRUCache :=
  mkCache (_capacity c) (_lru_list c) m.

(** [int get(int key) noexcept] *)
Definition get (key : Z) (c : LRUCache) (h : heap)
    : outcome (LRUCache * heap) Z :=
  match _lru_cache_map c !! key with
  | None => Returns KEY_NOT_FOUND_RET_VAL (c, h)
  | Some node =>
      match move_to_front node (_lru_list c) h with
      | None => Undefined
      | Some (L1, h1) =>
          match h1 !! node with
          | None => Undefined
          | Some n => Returns (_value n) (with_list c L1, h1)
          end
      end
  end.

(** [_lru_cache_map[key] = new_node;]: [operator[]] inserts a hash node
    when [key] is missing, which allocates; [ok] tells whether that
    allocation succeeds. *)
Definition map_assign (ok : bool) (key : Z) (node : positive)
    (m : gmap Z positive) : option (gmap Z positive) :=
  match m !! key with
  | Some _ => Some (<[key := node]> m)
  | None => if ok then Some (<[key := node]> m) else None
  end.

(** The two allocations a call of [put] may perform. *)
Record alloc : Type := mkAlloc {
  node_ok : bool;   (* new TwoWayListNode in add_to_front *)
  index_ok : bool   (* the hash node of _lru_cache_map[key] *)
}.

Definition all_ok : alloc := mkAlloc true true.

(** [void put(int key, int value)].  The handler of the growth path
    rethrows with [throw except;], a copy of static type [std::exception];
    the final index insertion is outside the [try] block. *)
Definition put (o : alloc) (key value : Z) (c : LRUCache) (h : heap)
    : outcome (LRUCache * heap) unit :=
  match _lru_cache_map c !! key with
  | Some node =>
      match (h1 ← store (set_value value) (Some node) h;
             move_to_front node (_lru_list c) h1) with
      | None => Undefined
      | Some (L1, h2) => Returns tt (with_list c L1, h2)
      end
  | None =>
      let placed : outcome (LRUCache * heap) positive :=
        if decide (list_size (_lru_list c) = to_size_t (_capacity c)) then
          match (new_node ← list_back (_lru_list c);
                 victim ← h !! new_node;
                 let m1 := delete (_key victim) (_lru_cache_map c) in
                 h1 ← store (set_key key) (Some new_node) h;
                 h2 ← store (set_value value) (Some new_node) h1;
                 '(L1, h3) ← move_to_front new_node (_lru_list c) h2;
                 Some (new_node, mkCache (_capacity c) L1 m1, h3)) with
          | None => Undefined
          | Some (new_node, c1, h3) => Returns new_node (c1, h3)
          end
        else
          match add_to_front (node_ok o) key value (_lru_list c) h with
          | Returns new_node (L1, h1) => Returns new_node (with_list c L1, h1)
          | Throws _ (L1, h1) => Throws std_exception (with_list c L1, h1)
          | Undefined => Undefined
          end in
      match placed with
      | Returns new_node (c1, h1) =>
          match map_assign (index_ok o) key new_node (_lru_cache_map c1) with
          | Some m2 => Returns tt (with_map c1 m2, h1)
          | None => Throws bad_alloc (c1, h1)
          end
      | Throws e s => Throws e s
      | Undefined => Undefined
      end
  end.

(** [capacity()] and [size()] *)
Definition capacity (c : LRUCache) : Z := to_size_t (_capacity c).
Definition size (c : LRUCache) : Z := list_size (_lru_list c).

(** [delete p]: defined only for a node that is still allocated. *)
Definition free (a : positive) (h : heap) : option heap :=
  match h !! a with
  | Some _ => Some (delete a h)
  | None => None
  end.

(** [void clear() noexcept]: deletes the node of every index entry, then
    clears the index.  [_lru_list] is not touched. *)
Definition clear (c : LRUCache) (h : heap) : outcome (LRUCache * heap) unit :=
  match foldl (λ oh kv, oh ≫= free kv.2) (Some h)
              (map_to_list (_lru_cache_map c)) with
  | None => Undefined
  | Some h1 => Returns tt (with_map c ∅, h1)
  end.

(** ** The representation invariant

    [seg h p l q]: in heap [h] the addresses [l] form a doubly linked
    segment, the first node pointing back to [p] and the last one forward
    to [q]. *)

Definition hd_or (q : option addr) (l : list positive) : option addr :=
  match l with [] => q | b :: _ => Some b end.

Definition last_or (p : option addr) (l : list positive) : option addr :=
  match last l with Some b => Some b | None => p end.

Fixpoint seg (h : heap) (p : option addr) (l : list positive)
    (q : option addr) : Prop :=
  match l with
  | [] => True
  | a :: l' =>
      ∃ n, h !! a = Some n ∧ _prev n = p ∧ _next n = hd_or q l' ∧
           seg h (Some a) l' q
  end.

(** The key and value a pointer leads to. *)
Definition payload (h : heap) (a : positive) : option (Z * Z) :=
  (λ n, (_key n, _value n)) <$> h !! a.

Definition key_at (h : heap) (a : positive) : option Z := _key <$> h !! a.
Definition value_at (h : heap) (a : positive) : option Z := _value <$> h !! a.

(** The list object [L] and the heap [h] hold the nodes [l], front first. *)
Record is_list (L : LRUTwoWayList) (h : heap) (l : list positive) : Prop :=
  mk_is_list {
    il_nodup : NoDup l;
    il_seg : seg h None l None;
    il_front : _front L = head l;
    il_back : _back L = last l;
    il_size : _size L = Z.of_nat (length l)
  }.

(** The global invariant of the cache, with the recency order [l] of the
    entries exposed: the index and the list hold the same entries, at most
    [_capacity] of them, and each key of the index leads to the entry that
    bears it. *)
Record Repr (c : LRUCache) (h : heap) (l : list positive) : Prop := mk_Repr {
  rp_list : is_list (_lru_list c) h l;
  rp_cap : 0 < _capacity c <= INT_MAX;
  rp_le : Z.of_nat (length l) <= _capacity c;
  rp_index : ∀ k a, _lru_cache_map c !! k = Some a ↔ a ∈ l ∧ key_at h a = Some k;
  rp_count : base.size (_lru_cache_map c) = length l
}.

Definition Inv (c : LRUCache) (h : heap) : Prop := ∃ l, Repr c h l.

(** Moving [g] to the front of a recency order. *)
Definition promote (g : positive) (l : list positive) : list positive :=
  g :: filter (λ a, a ≠ g) l.

(** The states a program reaches from a constructed cache by calls of
    [get] and [put] that return. *)
Inductive reachable : LRUCache → heap → Prop :=
| reach_construct n c : is_int n → construct n = inr c → reachable c ∅
| reach_get k c h v c' h' :
    reachable c h → get k c h = Returns v (c', h') → reachable c' h'
| reach_put o k v c h c' h' :
    reachable c h → put o k v c h = Returns tt (c', h') → reachable c' h'.

(** The recency order after a call, computed from the order before it. *)
Definition order_after_get (k : Z) (c : LRUCache) (l : list positive)
    : list positive :=
  match _lru_cache_map c !! k with
  | Some a => promote a l
  | None => l
  end.

Definition order_after_put (k : Z) (c : LRUCache) (h : heap)
    (l : list positive) : list positive :=
  match _lru_cache_map c !! k with
  | Some a => promote a l
  | None =>
      if decide (size c = capacity c)
      then match last l with Some b => promote b l | None => l end
      else fresh_addr (_lru_list c) h :: l
  end.

(** ** Example states

    A cache of capacity 2 after [put(1,1)], and after [put(1,1); put(2,2)]. *)

Definition cache2 : LRUCache := mkCache 2 LRUTwoWayList_new ∅.

Definition cache2_1 : LRUCache :=
  mkCache 2 (mkList 1 (Some 1%positive) (Some 1%positive))
          {[ 1 := 1%positive ]}.
Definition heap2_1 : heap := {[ 1%positive := mkNode 1 1 None None ]}.

Definition cache2_2 : LRUCache :=
  mkCache 2 (mkList 2 (Some 2%positive) (Some 1%positive))
          (<[ 2 := 2%positive ]> {[ 1 := 1%positive ]}).
Definition heap2_2 : heap :=
  <[ 2%positive := mkNode 2 2 None (Some 1%positive) ]>
    {[ 1%positive := mkNode 1 1 (Some 2%positive) None ]}.

(** A test driver in the manner of [TEST_LOGGED]: the calls are made in
    order on one cache, every allocation succeeding, and what each [get]
    returns is collected. *)
Inductive op : Type := Get (key : Z) | Put (key value : Z).

Fixpoint run (ops : list op) (c : LRUCache) (h : heap)
    : option (list Z * (LRUCache * heap)) :=
  match ops with
  | [] => Some ([], (c, h))
  | Get key :: ops' =>
      match get key c h with
      | Returns v (c', h') =>
          '(vs, s) ← run ops' c' h'; Some (v :: vs, s)
      | _ => None
      end
  | Put key value :: ops' =>
      match put all_ok key value c h with
      | Returns _ (c', h') => run ops' c' h'
      | _ => None
      end
  end.

(** What the [get]s of a run returned, and the keys of the index after it. *)
Definition returned (ops : list op) (c : LRUCache) : option (list Z) :=
  fst <$> run ops c ∅.
Definition keys_after (ops : list op) (c : LRUCache) : option (gset Z) :=
  (λ r, dom (_lru_cache_map r.2.1)) <$> run ops c ∅.

(** ** The destructor, the stream operator and the test helpers *)

(** [~LRUCache()] calls [clear()]. *)
Definition destroy (c : LRUCache) (h : heap) : outcome (LRUCache * heap) unit :=
  clear c h.

(** What the cache holds for a key: the value of the entry the index leads
    to.  This is [get] without the promotion; it is used to state what a
    call leaves alone. *)
Definition peek (k : Z) (c : LRUCache) (h : heap) : option Z :=
  a ← _lru_cache_map c !! k; value_at h a.

(** The key a call [put(k, _)] evicts, if any: the key of the back entry
    when [k] is new and the list is at capacity. *)
Definition evicted (k : Z) (c : LRUCache) (h : heap) : option Z :=
  match _lru_cache_map c !! k with
  | Some _ => None
  | None =>
      if decide (size c = capacity c)
      then b ← list_back (_lru_list c); key_at h b
      else None
  end.

(** How a loop of the source ends: normally, on a null or dangling
    dereference (or another undefined operation), or, in the model only,
    because the fuel that bounds the loop ran out. *)
Inductive loop_result (A : Type) : Type :=
| Done (a : A)
| Fault
| OutOfFuel.
Arguments Done {A} a.
Arguments Fault {A}.
Arguments OutOfFuel {A}.

(** [os << iter->_key << "=" << iter->_value] *)
Definition entry_text (n : TwoWayListNode) : string :=
  pretty (_key n) +:+ "=" +:+ pretty (_value n).

(** The [for] loop of [operator<<] on the list: it stops at a null [iter]
    or at the node whose [_next] is null, and writes every node before
    that one followed by a comma and a blank. *)
Fixpoint show_loop (fuel : nat) (h : heap) (iter : option addr) (os : string)
    : loop_result (option addr * string) :=
  match iter with
  | None => Done (None, os)
  | Some a =>
      match h !! a with
      | None => Fault
      | Some n =>
          match _next n with
          | None => Done (Some a, os)
          | Some _ =>
              match fuel with
              | O => OutOfFuel
              | S fuel' =>
                  show_loop fuel' h (_next n) (os +:+ entry_text n +:+ ", ")
              end
          end
      end
  end.

(** [ostream& operator<< (ostream& os, const LRUTwoWayList& list)] *)
Definition show_list (fuel : nat) (L : LRUTwoWayList) (h : heap) (os : string)
    : loop_result string :=
  match show_loop fuel h (list_front L) (os +:+ "{") with
  | Done (None, os1) => Done (os1 +:+ "}")
  | Done (Some a, os1) =>
      match h !! a with
      | None => Fault
      | Some n => Done (os1 +:+ entry_text n +:+ "}")
      end
  | Fault => Fault
  | OutOfFuel => OutOfFuel
  end.

(** [ostream& operator<< (ostream& os, const LRUCache& cache)] *)
Definition show (fuel : nat) (c : LRUCache) (h : heap) (os : string)
    : loop_result string :=
  show_list fuel (_lru_list c) h os.

(** The text of one [key=value] pair, and the pairs of a recency order. *)
Definition pair_text (kv : Z * Z) : string :=
  pretty kv.1 +:+ "=" +:+ pretty kv.2.
Definition contents (h : heap) (l : list positive) : list (Z * Z) :=
  omap (payload h) l.

(** How a helper of [LoggedOrTimedOpsTester] ends: it finishes, its
    [assert] fails, an exception of [put] escapes, an operation is
    undefined, or the fuel of the model ran out.  What the helpers write
    to [cout] and the clock readings are left out; every allocation is
    taken to succeed. *)
Inductive test_result : Type :=
| Finished (s : LRUCache * heap)
| AssertFailed (s : LRUCache * heap)
| Raised (e : exn) (s : LRUCache * heap)
| Crashed
| NoFuel.

(** The loop of [populate_to_capacity]: [for (int i = 1; i <=
    _cache.capacity(); ++i) _cache.put(i, i);].  The test compares the
    [int] with a [size_t]; [++i] on [INT_MAX] is undefined. *)
Fixpoint populate_loop (fuel : nat) (i : Z) (c : LRUCache) (h : heap)
    : test_result :=
  if decide (to_size_t i <= capacity c) then
    match fuel with
    | O => NoFuel
    | S fuel' =>
        match put all_ok i i c h with
        | Returns _ (c', h') =>
            if decide (i = INT_MAX) then Crashed
            else populate_loop fuel' (i + 1) c' h'
        | Throws e s => Raised e s
        | Undefined => Crashed
        end
    end
  else Finished (c, h).

(** [populate_to_capacity()] *)
Definition populate_to_capacity (fuel : nat) (c : LRUCache) (h : heap)
    : test_result :=
  match populate_loop fuel 1 c h with
  | Finished (c', h') =>
      if decide (size c' = capacity c') then Finished (c', h')
      else AssertFailed (c', h')
  | r => r
  end.

(** The loop of [time_test_load]: [for (int i = 0; i < load; ++i)
    { _cache.put(i, i); _cache.get(i % (load / 50)); }].  Division and
    remainder truncate; a zero divisor is undefined. *)
Fixpoint load_loop (fuel : nat) (load i : Z) (c : LRUCache) (h : heap)
    : test_result :=
  if decide (i < load) then
    match fuel with
    | O => NoFuel
    | S fuel' =>
        match put all_ok i i c h with
        | Returns _ (c1, h1) =>
            if decide (load ÷ 50 = 0) then Crashed
            else
              match get (i `rem` (load ÷ 50)) c1 h1 with
              | Returns _ (c2, h2) => load_loop fuel' load (i + 1) c2 h2
              | Throws e s => Raised e s
              | Undefined => Crashed
              end
        | Throws e s => Raised e s
        | Undefined => Crashed
        end
    end
  else Finished (c, h).

(** [time_test_load(int load)] *)
Definition time_test_load (fuel : nat) (load : Z) (c : LRUCache) (h : heap)
    : test_result :=
  match load_loop fuel load 0 c h with
  | Finished (c', h') =>
      if decide (size c' = capacity c') then Finished (c', h')
      else AssertFailed (c', h')
  | r => r
  end.

(** Sequencing of test steps, and the embedding of a call or of a printing
    loop as a test step. *)
Definition and_then (r : test_result) (f : LRUCache → heap → test_result)
    : test_result :=
  match r with
  | Finished (c, h) => f c h
  | _ => r
  end.

Definition call {A : Type} (o : outcome (LRUCache * heap) A) : test_result :=
  match o with
  | Returns _ s => Finished s
  | Throws e s => Raised e s
  | Undefined => Crashed
  end.

(** [cout << ... << _cache << endl]: only the walk over the list matters
    here, the text is dropped. *)
Definition print_cache (fuel : nat) (c : LRUCache) (h : heap) : test_result :=
  match show fuel c h "" with
  | Done _ => Finished (c, h)
  | Fault => Crashed
  | OutOfFuel => NoFuel
  end.

(** [log_initial_cache], [logged_put], [logged_get], [timed_put] and
    [timed_get] of [LoggedOrTimedOpsTester]. *)
Definition log_initial_cache (fuel : nat) (c : LRUCache) (h : heap)
    : test_result :=
  print_cache fuel c h.
Definition logged_put (fuel : nat) (key value : Z) (c : LRUCache) (h : heap)
    : test_result :=
  and_then (call (put all_ok key value c h)) (print_cache fuel).
Definition logged_get (fuel : nat) (key : Z) (c : LRUCache) (h : heap)
    : test_result :=
  and_then (call (get key c h)) (print_cache fuel).
Definition timed_put (key value : Z) (c : LRUCache) (h : heap) : test_result :=
  call (put all_ok key value c h).
Definition timed_get (key : Z) (c : LRUCache) (h : heap) : test_result :=
  call (get key c h).

(** [void TEST_LOGGED(LRUCache& cache)] *)
Definition TEST_LOGGED (fuel : nat) (c : LRUCache) (h : heap) : test_result :=
  and_then (log_initial_cache fuel c h) (λ c h,
  and_then (logged_put fuel 1 1 c h) (λ c h,
  and_then (logged_put fuel 2 2 c h) (λ c h,
  and_then (logged_get fuel 1 c h) (λ c h,
  and_then (logged_put fuel 3 3 c h) (λ c h,
  and_then (logged_get fuel 2 c h) (λ c h,
  and_then (logged_put fuel 4 4 c h) (λ c h,
  and_then (logged_get fuel 1 c h) (λ c h,
  and_then (logged_get fuel 3 c h) (λ c h,
  logged_get fuel 4 c h))))))))).

(** [void TEST_TIMED_AND_LOADED(LRUCache& cache, int load)] *)
Definition TEST_TIMED_AND_LOADED (fuel : nat) (load : Z) (c : LRUCache)
    (h : heap) : test_result :=
  and_then (timed_put 1 1 c h) (λ c h,
  and_then (timed_get 1 c h) (λ c h,
  and_then (timed_put 2 2 c h) (λ c h,
  and_then (timed_get 2 c h) (λ c h,
  and_then (timed_put 3 3 c h) (λ c h,
  and_then (timed_get 4 c h) (λ c h,
  and_then (timed_get 4 c h) (λ c h,
  and_then (populate_to_capacity fuel c h) (λ c h,
  and_then (timed_put (-1) (-2) c h) (λ c h,
  and_then (timed_get (-1) c h) (λ c h,
  and_then (timed_get (-2) c h) (λ c h,
  and_then (timed_put 1 2 c h) (λ c h,
  time_test_load fuel load c h)))))))))))).

(** How [run_and_test_lru_cache_impl] ends: it returns a code, leaving a
    heap of nodes behind; an [assert] aborts the program; an operation is
    undefined; or the fuel of the model ran out. *)
Inductive exit : Type :=
| Exit (code : Z) (h : heap)
| Aborted
| Undefined_run
| Unfinished.

(** [int run_and_test_lru_cache_impl()], for the capacity read from [cin].
    The cache lives in a [shared_ptr] local to the [try] block, so it is
    destroyed when the block is left, normally or by an exception; every
    exception is caught and turned into the code -1. *)
Definition run_and_test_lru_cache_impl (fuel : nat) (capacity : Z) : exit :=
  match construct capacity with
  | inl _ => Exit (-1) ∅
  | inr c =>
      match and_then (TEST_LOGGED fuel c ∅)
                     (TEST_TIMED_AND_LOADED fuel 10000) with
      | Finished (c', h') =>
          match destroy c' h' with
          | Returns _ (_, h'') => Exit 0 h''
          | Throws _ (_, h'') => Exit (-1) h''
          | Undefined => Undefined_run
          end
      | Raised _ (c', h') =>
          match destroy c' h' with
          | Returns _ (_, h'') | Throws _ (_, h'') => Exit (-1) h''
          | Undefined => Undefined_run
          end
      | AssertFailed _ => Aborted
      | Crashed => Undefined_run
      | NoFuel => Unfinished
      end
  end.

(** What the test steps keep: the cache is one that calls of [get] and
    [put] reach, it has capacity [cap], and, when [full] is set, it is at
    capacity. *)
Definition sound (cap : Z) (full : bool) (c : LRUCache) (h : heap) : Prop :=
  reachable c h ∧ _capacity c = cap ∧ (full = true → size c = capacity c).

(** * Properties *)

(** ** Lists of addresses *)

Lemma hd_or_app q l1 l2 : hd_or q (l1 ++ l2) = hd_or (hd_or q l2) l1.
Proof. by destruct l1. Qed.

Lemma last_or_cons p a l : last_or p (a :: l) = last_or (Some a) l.
Proof.
  unfold last_or. destruct l as [|b l]; [done|].
  rewrite last_cons_cons. by destruct (last (b :: l)) eqn:E;
    [|apply last_None in E].
Qed.

Lemma last_or_snoc p l a : last_or p (l ++ [a]) = Some a.
Proof. unfold last_or. by rewrite last_snoc. Qed.

Lemma filter_ne_notin (g : positive) (l : list positive) :
  g ∉ l → filter (λ a, a ≠ g) l = l.
Proof.
  induction l as [|b l IH]; [done|].
  intros [Hne Hl]%not_elem_of_cons.
  rewrite filter_cons_True; [|congruence]. by rewrite IH.
Qed.

Lemma promote_split g l1 l2 :
  NoDup (l1 ++ g :: l2) → promote g (l1 ++ g :: l2) = g :: l1 ++ l2.
Proof.
  intros Hnd. unfold promote. f_equal.
  apply NoDup_app in Hnd as (_ & Hd & [Hg _]%NoDup_cons).
  rewrite filter_app, filter_cons_False by (intros ?; congruence).
  rewrite !filter_ne_notin; [done..|].
  intros Hin. by apply (Hd g Hin), list_elem_of_here.
Qed.

(** ** Doubly linked segments *)

Lemma seg_app h p l1 l2 q :
  seg h p (l1 ++ l2) q ↔ seg h p l1 (hd_or q l2) ∧ seg h (last_or p l1) l2 q.
Proof.
  revert p. induction l1 as [|a l1 IH]; intros p; simpl.
  - unfold last_or; simpl. tauto.
  - rewrite last_or_cons, hd_or_app. split.
    + intros (n & Hn & Hp & Hq & [Hs1 Hs2]%IH). eauto 10.
    + intros [(n & Hn & Hp & Hq & Hs1) Hs2].
      exists n. split_and!; [done..|]. by apply IH.
Qed.

Lemma seg_frame h p l q a n :
  a ∉ l → seg h p l q → seg (<[a:=n]> h) p l q.
Proof.
  revert p; induction l as [|b l IH]; simpl; [done|].
  intros p [Hne Hl]%not_elem_of_cons (m & Hm & Hp & Hq & Hs).
  exists m. rewrite lookup_insert_ne by done. eauto.
Qed.

Lemma seg_update h p l q a n (f : TwoWayListNode → TwoWayListNode) :
  h !! a = Some n → _prev (f n) = _prev n → _next (f n) = _next n →
  seg h p l q → seg (<[a := f n]> h) p l q.
Proof.
  intros Hn Hfp Hfn. revert p; induction l as [|b l IH]; simpl; [done|].
  intros p (m & Hm & Hp & Hq & Hs). destruct (decide (a = b)) as [->|Hne].
  - rewrite Hn in Hm; injection Hm as <-.
    exists (f n). rewrite lookup_insert_eq, Hfp, Hfn. eauto.
  - exists m. rewrite lookup_insert_ne by done. eauto.
Qed.

Lemma seg_set_prev h p p' a l q n :
  a ∉ l → h !! a = Some n → seg h p (a :: l) q →
  seg (<[a := set_prev p' n]> h) p' (a :: l) q.
Proof.
  simpl. intros Hl Hn (m & Hm & Hp & Hq & Hs).
  rewrite Hn in Hm; injection Hm as <-.
  exists (set_prev p' n). rewrite lookup_insert_eq.
  split_and!; try done. by apply seg_frame.
Qed.

Lemma seg_set_next h p a l q q' n :
  a ∉ l → h !! a = Some n → seg h p (l ++ [a]) q →
  seg (<[a := set_next q' n]> h) p (l ++ [a]) q'.
Proof.
  intros Hl Hn [H1 H2]%seg_app. apply seg_app. simpl in *.
  split; [by apply seg_frame|].
  destruct H2 as (m & Hm & Hp & Hq & _).
  rewrite Hn in Hm; injection Hm as <-.
  exists (set_next q' n). by rewrite lookup_insert_eq.
Qed.

Lemma seg_allocated h p l q a : a ∈ l → seg h p l q → is_Some (h !! a).
Proof.
  revert p; induction l as [|b l IH]; simpl; intros p Hin.
  - by apply elem_of_nil in Hin.
  - intros (m & Hm & _ & _ & Hs).
    apply elem_of_cons in Hin as [->|Hin]; eauto.
Qed.

Lemma seg_cons h p a l q :
  seg h p (a :: l) q ↔
  ∃ n, h !! a = Some n ∧ _prev n = p ∧ _next n = hd_or q l ∧
       seg h (Some a) l q.
Proof. done. Qed.

Arguments seg : simpl never.

(** ** Payloads under writes *)

Lemma store_Some (f : TwoWayListNode → TwoWayListNode) a n (h : heap) :
  h !! a = Some n → store f (Some a) h = Some (<[a := f n]> h).
Proof. intros Hn. unfold store; simpl. by rewrite Hn. Qed.

Lemma payload_insert_same (h : heap) a n n' b :
  h !! a = Some n → _key n' = _key n → _value n' = _value n →
  payload (<[a := n']> h) b = payload h b.
Proof.
  intros Hn Hk Hv. unfold payload. destruct (decide (a = b)) as [->|Hne].
  - rewrite lookup_insert_eq, Hn; simpl. by rewrite Hk, Hv.
  - by rewrite lookup_insert_ne.
Qed.

Lemma payload_key h h' a :
  payload h' a = payload h a → key_at h' a = key_at h a.
Proof.
  unfold payload, key_at.
  destruct (h' !! a), (h !! a); simpl; congruence.
Qed.

Lemma payload_key_Some h a k v : payload h a = Some (k, v) → key_at h a = Some k.
Proof.
  unfold payload, key_at. destruct (h !! a); simpl; congruence.
Qed.

Lemma payload_value_Some h a k v :
  payload h a = Some (k, v) → value_at h a = Some v.
Proof.
  unfold payload, value_at. destruct (h !! a); simpl; congruence.
Qed.

Lemma payload_value h h' a :
  payload h' a = payload h a → value_at h' a = value_at h a.
Proof.
  unfold payload, value_at.
  destruct (h' !! a), (h !! a); simpl; congruence.
Qed.

Lemma payload_dom h h' :
  (∀ a, payload h' a = payload h a) → dom h' = dom h.
Proof.
  intros Hp. apply set_eq; intros a. rewrite !elem_of_dom.
  specialize (Hp a). unfold payload in Hp.
  destruct (h' !! a), (h !! a); simpl in *; try done;
    split; intros [? ?]; done.
Qed.

(** ** [move_to_front] on a well-formed list *)

(** The last three assignments of [move_to_front]: [g], already unplugged,
    becomes the front of [f :: r]. *)
Lemma link_front_spec (h : heap) f r g :
  NoDup (g :: f :: r) → seg h None (f :: r) None → is_Some (h !! g) →
  ∃ h', (∀ (B : Type) (k : heap → option B),
           (h2 ← store (set_next (Some f)) (Some g) h;
            h3 ← store (set_prev None) (Some g) h2;
            h4 ← store (set_prev (Some g)) (Some f) h3;
            k h4) = k h') ∧
        seg h' None (g :: f :: r) None ∧
        (∀ a, payload h' a = payload h a).
Proof.
  intros [Hg [Hf Hr]%NoDup_cons]%NoDup_cons Hseg [ng Hng].
  assert (f ≠ g) as Hfg by (intros ->; apply Hg; left).
  destruct (seg_allocated h None (f :: r) None f) as [nf Hnf]; [left|done|].
  set (h2 := <[g := set_next (Some f) ng]> h).
  set (h3 := <[g := set_prev None (set_next (Some f) ng)]> h2).
  assert (h3 !! f = Some nf) as Hnf3.
  { unfold h3, h2. by rewrite !lookup_insert_ne. }
  exists (<[f := set_prev (Some g) nf]> h3).
  split; [|split].
  - intros B k. rewrite (store_Some _ g ng) by done. simpl. fold h2.
    rewrite (store_Some _ g (set_next (Some f) ng))
      by (unfold h2; apply lookup_insert_eq).
    simpl. fold h3. by rewrite (store_Some _ f nf).
  - apply seg_cons. exists (set_prev None (set_next (Some f) ng)).
    split_and!; [|done..|].
    { rewrite lookup_insert_ne by done. apply lookup_insert_eq. }
    apply (seg_set_prev h3 None (Some g) f r None nf); [done..|].
    unfold h3, h2. by repeat (apply seg_frame; [done|]).
  - intros a.
    rewrite (payload_insert_same h3 f nf) by done.
    unfold h3. rewrite (payload_insert_same h2 g (set_next (Some f) ng))
      by (done || apply lookup_insert_eq).
    unfold h2. by rewrite (payload_insert_same h g ng).
Qed.

Lemma move_to_front_spec L (h : heap) l1 g l2 :
  NoDup (l1 ++ g :: l2) → seg h None (l1 ++ g :: l2) None →
  _front L = head (l1 ++ g :: l2) → _back L = last (l1 ++ g :: l2) →
  ∃ L' h', move_to_front g L h = Some (L', h') ∧
    seg h' None (g :: l1 ++ l2) None ∧
    _front L' = Some g ∧ _back L' = last (g :: l1 ++ l2) ∧
    _size L' = _size L ∧ (∀ a, payload h' a = payload h a).
Proof.
  intros Hnd Hseg Hfront Hback. unfold move_to_front.
  destruct l1 as [|f l1].
  { simpl in *. rewrite decide_True by done. eauto 10. }
  simpl in Hfront.
  assert (f ≠ g) as Hfg.
  { intros ->. simpl in Hnd. apply NoDup_cons in Hnd as [Hnd _]. apply Hnd.
    apply elem_of_app; right; left. }
  rewrite decide_False by (rewrite Hfront; congruence).
  apply seg_app in Hseg as [Hs1 Hs2]. simpl hd_or in Hs1.
  destruct (last (f :: l1)) as [p|] eqn:Hp; [|by apply last_None in Hp].
  apply last_Some in Hp as [l1' Hl1'].
  assert (last_or None (f :: l1) = Some p) as Hlo
    by (rewrite Hl1'; apply last_or_snoc).
  rewrite Hlo in Hs2.
  apply seg_cons in Hs2 as (ng & Hng & Hgp & Hgn & Hs2).
  apply NoDup_app in Hnd as (Hnd1 & Hdisj & [Hgl2 Hnd2]%NoDup_cons).
  assert (g ∉ f :: l1) as Hgl1.
  { intros Hin. apply (Hdisj g Hin). left. }
  assert (p ∈ f :: l1) as Hpin by (rewrite Hl1'; apply elem_of_app; right; left).
  assert (p ≠ g) as Hpg by (intros ->; done).
  destruct (seg_allocated h None (f :: l1) (Some g) p Hpin Hs1) as [np Hnp].
  assert (p ∉ l1') as Hpl1'.
  { rewrite Hl1' in Hnd1. apply NoDup_app in Hnd1 as (_ & Hd & _).
    intros Hin. apply (Hd p Hin). left. }
  (* the state once [g] is unplugged *)
  lazymatch goal with
  | |- ∃ L' h', mbind _ ?X = _ ∧ _ => set (unplugged := X)
  end.
  assert (∃ L1 h1, unplugged = Some (L1, h1) ∧
    seg h1 None (f :: l1 ++ l2) None ∧ _front L1 = Some f ∧
    _back L1 = last (f :: l1 ++ l2) ∧ _size L1 = _size L ∧
    (∀ a, payload h1 a = payload h a))
    as (L1 & h1 & -> & Hseg1 & Hf1 & Hb1 & Hsz1 & Hpay1).
  { unfold unplugged. destruct l2 as [|n l2].
    - (* [g] is the back *)
      rewrite last_snoc in Hback. rewrite decide_True by done.
      rewrite Hback. simpl. rewrite Hng. simpl. rewrite Hgp.
      rewrite (store_Some _ p np) by done. simpl.
      eexists _, _. split; [done|]. rewrite app_nil_r. simpl.
      split_and!; try done.
      + rewrite Hl1' in Hs1 |- *. by apply (seg_set_next h None p l1' (Some g)).
      + rewrite Hl1'. by rewrite last_snoc.
      + intros a. by apply (payload_insert_same h p np).
    - (* [g] is an interior node *)
      assert (_back L ≠ Some g) as Hbg.
      { rewrite Hback. rewrite last_app_cons, last_cons_cons.
        intros Hl%last_Some_elem_of. done. }
      rewrite decide_False by done.
      rewrite Hng. simpl. rewrite Hgp, Hgn. simpl hd_or.
      rewrite (store_Some _ p np) by done. simpl.
      rewrite lookup_insert_ne by done. rewrite Hng. simpl.
      rewrite Hgp, Hgn. simpl hd_or.
      assert (n ≠ p) as Hnp'.
      { intros ->. apply (Hdisj p Hpin). right; left. }
      pose proof Hs2 as (nn & Hnn & Hnprev & Hnnext & _)%seg_cons.
      rewrite (store_Some _ n nn) by (by rewrite lookup_insert_ne).
      simpl. eexists _, _. split; [done|].
      split_and!; try done.
      + change (f :: l1 ++ n :: l2) with ((f :: l1) ++ n :: l2).
        apply seg_app. rewrite Hlo. simpl hd_or. split.
        * apply seg_frame.
          { intros Hin. apply (Hdisj n Hin). right; left. }
          rewrite Hl1' in Hs1 |- *.
          by apply (seg_set_next h None p l1' (Some g)).
        * apply NoDup_cons in Hnd2 as [Hnl2 _].
          apply (seg_set_prev _ (Some g)); [done|by rewrite lookup_insert_ne|].
          apply seg_frame; [|done].
          intros Hin. apply (Hdisj p Hpin). by right.
      + rewrite Hback.
        change (f :: l1 ++ n :: l2) with ((f :: l1) ++ n :: l2).
        by rewrite !last_app_cons, last_cons_cons.
      + intros a.
        rewrite (payload_insert_same _ n nn)
          by (done || by rewrite lookup_insert_ne).
        by apply (payload_insert_same h p np). }
  simpl. rewrite Hf1.
  destruct (link_front_spec h1 f (l1 ++ l2) g) as (h4 & Hk & Hseg4 & Hpay4).
  - apply NoDup_cons. split.
    + change (f :: l1 ++ l2) with ((f :: l1) ++ l2).
      apply not_elem_of_app. done.
    + change (f :: l1 ++ l2) with ((f :: l1) ++ l2).
      apply NoDup_app. split_and!; [done| |done].
      intros x Hx Hx2. apply (Hdisj x Hx). by right.
  - done.
  - specialize (Hpay1 g). unfold payload in Hpay1. rewrite Hng in Hpay1.
    destruct (h1 !! g); [eauto|done].
  - rewrite Hk. eexists _, _. split; [done|]. split_and!; try done.
    intros a. by rewrite Hpay4.
Qed.

Lemma move_to_front_is_list L (h : heap) l g :
  is_list L h l → g ∈ l →
  ∃ L' h', move_to_front g L h = Some (L', h') ∧
    is_list L' h' (promote g l) ∧ (∀ a, payload h' a = payload h a).
Proof.
  intros [Hnd Hseg Hf Hb Hsz] (l1 & l2 & ->)%list_elem_of_split.
  destruct (move_to_front_spec L h l1 g l2)
    as (L' & h' & Hm & Hseg' & Hf' & Hb' & Hsz' & Hpay); [done..|].
  exists L', h'. split_and!; [done| |done].
  rewrite promote_split by done.
  assert (NoDup (g :: l1 ++ l2)) as Hnd'.
  { apply NoDup_app in Hnd as (Hn1 & Hd & [Hg Hn2]%NoDup_cons).
    apply NoDup_cons. split.
    - apply not_elem_of_app. split; [|done].
      intros Hin. apply (Hd g Hin). left.
    - apply NoDup_app. split_and!; [done| |done].
      intros x Hx Hx2. apply (Hd x Hx). by right. }
  split; [done..|].
  rewrite Hsz', Hsz. f_equal. rewrite !length_app. simpl. rewrite length_app. lia.
Qed.

(** [move_to_front] on the node that is already the front changes nothing. *)
Lemma move_to_front_front L (h : heap) g :
  _front L = Some g → move_to_front g L h = Some (L, h).
Proof. intros Hf. unfold move_to_front. by rewrite decide_True. Qed.

(** ** [add_to_front] on a well-formed list *)

Lemma fresh_addr_held L (h : heap) : fresh_addr L h ∉ held_pointers L h.
Proof.
  unfold fresh_addr. pose proof (is_fresh (dom h ∪ held_pointers L h)) as Hf.
  intros Hin. apply Hf, elem_of_union. by right.
Qed.

Lemma fresh_addr_None L (h : heap) : h !! fresh_addr L h = None.
Proof.
  unfold fresh_addr. apply not_elem_of_dom.
  pose proof (is_fresh (dom h ∪ held_pointers L h)) as Hf.
  intros Hin. apply Hf, elem_of_union. by left.
Qed.

Lemma to_size_t_small z : 0 <= z < 2 ^ 64 → to_size_t z = z.
Proof. intros Hz. unfold to_size_t. by apply Z.mod_small. Qed.

Lemma add_to_front_fail key value L (h : heap) :
  add_to_front false key value L h = Throws bad_alloc (L, h).
Proof. done. Qed.

Lemma add_to_front_spec key value L (h : heap) l :
  is_list L h l → Z.of_nat (length l) < 2 ^ 64 - 1 →
  ∃ L' h',
    add_to_front true key value L h = Returns (fresh_addr L h) (L', h') ∧
    is_list L' h' (fresh_addr L h :: l) ∧
    payload h' (fresh_addr L h) = Some (key, value) ∧
    (∀ a, a ≠ fresh_addr L h → payload h' a = payload h a).
Proof.
  intros [Hnd Hseg Hf Hb Hsz] Hlen.
  set (nn := fresh_addr L h).
  assert (h !! nn = None) as Hnn by apply fresh_addr_None.
  assert (nn ∉ l) as Hnl.
  { intros Hin. destruct (seg_allocated h None l None nn Hin Hseg) as [? ?].
    congruence. }
  unfold add_to_front, new_node. fold nn.
  set (h0 := <[nn := new_TwoWayListNode key value]> h).
  destruct l as [|f r].
  - simpl in Hf, Hb. rewrite Hf, Hb. eexists _, _. split; [done|].
    split_and!.
    + split; simpl; try done.
      * apply NoDup_singleton.
      * apply seg_cons. exists (new_TwoWayListNode key value).
        unfold h0. by rewrite lookup_insert_eq.
      * rewrite Hsz. simpl. by apply to_size_t_small.
    + unfold payload, h0. by rewrite lookup_insert_eq.
    + intros a Ha. unfold payload, h0. by rewrite lookup_insert_ne.
  - simpl in Hf. rewrite Hf.
    assert (f ≠ nn) as Hfn by (intros ->; apply Hnl; left).
    destruct (seg_allocated h None (f :: r) None f) as [nf Hnf]; [left|done|].
    rewrite (store_Some _ nn (new_TwoWayListNode key value))
      by (unfold h0; apply lookup_insert_eq).
    simpl. set (h1 := <[nn := _]> h0).
    assert (h1 !! f = Some nf) as Hnf1.
    { unfold h1, h0. by rewrite !lookup_insert_ne. }
    rewrite (store_Some _ f nf) by done. simpl.
    eexists _, _. split; [done|]. split_and!.
    + split; simpl.
      * by apply NoDup_cons.
      * apply seg_cons. eexists. split_and!.
        { rewrite lookup_insert_ne by done. unfold h1. apply lookup_insert_eq. }
        { done. }
        { done. }
        apply NoDup_cons in Hnd as [Hfr _].
        apply (seg_set_prev h1 None); [done..|].
        unfold h1, h0. by repeat (apply seg_frame; [done|]).
      * done.
      * rewrite Hb. symmetry. apply (last_cons_cons nn f r).
      * rewrite Hsz. simpl length in *. rewrite to_size_t_small; lia.
    + unfold payload. rewrite lookup_insert_ne by done.
      unfold h1. by rewrite lookup_insert_eq.
    + intros a Ha.
      rewrite (payload_insert_same h1 f nf) by done.
      unfold payload, h1, h0. by rewrite !lookup_insert_ne.
Qed.

(** ** Recency orders *)

Lemma elem_of_promote g l b : g ∈ l → b ∈ promote g l ↔ b ∈ l.
Proof.
  intros Hg. unfold promote. rewrite elem_of_cons, list_elem_of_filter.
  destruct (decide (b = g)) as [->|Hne]; split.
  - done.
  - by left.
  - by intros [?|[_ ?]].
  - by right.
Qed.

Lemma length_promote g l :
  NoDup l → g ∈ l → length (promote g l) = length l.
Proof.
  intros Hnd (l1 & l2 & ->)%list_elem_of_split.
  rewrite promote_split by done. simpl. rewrite !length_app. simpl. lia.
Qed.

Lemma head_promote g l : head (promote g l) = Some g.
Proof. done. Qed.

Lemma promote_head g l : NoDup l → head l = Some g → promote g l = l.
Proof.
  intros Hnd Hh. destruct l as [|f r]; simplify_eq/=.
  apply (promote_split g [] r Hnd).
Qed.

Lemma is_list_update L (h : heap) l a n (f : TwoWayListNode → TwoWayListNode) :
  h !! a = Some n → _prev (f n) = _prev n → _next (f n) = _next n →
  is_list L h l → is_list L (<[a := f n]> h) l.
Proof.
  intros Hn Hp Hq [Hnd Hseg Hf Hb Hsz]. split; try done.
  by apply seg_update.
Qed.

Lemma is_list_allocated L (h : heap) l a :
  is_list L h l → a ∈ l → is_Some (h !! a).
Proof. intros [_ Hseg _ _ _] Hin. by eapply seg_allocated. Qed.

Lemma is_list_nonempty_back L (h : heap) l :
  is_list L h l → l ≠ [] → ∃ b, _back L = Some b ∧ last l = Some b ∧ b ∈ l.
Proof.
  intros [_ _ _ Hb _] Hl. apply last_is_Some in Hl as [b Hlast].
  exists b. rewrite Hb. split_and!; [done..|]. by apply last_Some_elem_of.
Qed.

(** ** The invariant under reordering *)

Lemma Repr_reorder c (h : heap) l L' (h' : heap) l' :
  Repr c h l → is_list L' h' l' → (∀ b, b ∈ l' ↔ b ∈ l) →
  length l' = length l → (∀ b, key_at h' b = key_at h b) →
  Repr (with_list c L') h' l'.
Proof.
  intros [Hl Hcap Hle Hidx Hcnt] Hl' Hmem Hlen Hkey.
  split; simpl; try done.
  - by rewrite Hlen.
  - intros k a. by rewrite Hidx, Hmem, Hkey.
  - by rewrite Hlen.
Qed.

Lemma Repr_capacity c (h : heap) l : Repr c h l → capacity c = _capacity c.
Proof.
  intros [_ Hcap _ _ _]. unfold capacity. apply to_size_t_small.
  unfold INT_MAX in Hcap. lia.
Qed.

Lemma Repr_size c (h : heap) l : Repr c h l → size c = Z.of_nat (length l).
Proof. intros [[_ _ _ _ Hsz] _ _ _ _]. done. Qed.

Lemma with_list_id c : with_list c (_lru_list c) = c.
Proof. by destruct c. Qed.

(** ** [get] and [put] on a well-formed cache *)

Lemma get_hit k c (h : heap) l a :
  Repr c h l → _lru_cache_map c !! k = Some a →
  ∃ n L' h', h !! a = Some n ∧ _key n = k ∧
    get k c h = Returns (_value n) (with_list c L', h') ∧
    Repr (with_list c L') h' (promote a l) ∧
    (∀ b, payload h' b = payload h b).
Proof.
  intros HR Hk. pose proof HR as [Hl Hcap Hle Hidx Hcnt].
  apply Hidx in Hk as Hk'. destruct Hk' as [Hin Hkey].
  unfold key_at in Hkey. destruct (h !! a) as [n|] eqn:Hn; simplify_eq/=.
  destruct (move_to_front_is_list _ h l a Hl Hin) as (L' & h' & Hm & Hl' & Hpay).
  pose proof (Hpay a) as Hpa. unfold payload in Hpa. rewrite Hn in Hpa.
  destruct (h' !! a) as [n'|] eqn:Hn'; simplify_eq/=.
  exists n, L', h'. split_and!; try done.
  - unfold get. rewrite Hk, Hm, Hn'. congruence.
  - eapply Repr_reorder; [done..| | |].
    + intros b. by apply elem_of_promote.
    + apply length_promote; [apply Hl|done].
    + intros b. by apply payload_key.
Qed.

Lemma put_hit o k v c (h : heap) l a :
  Repr c h l → _lru_cache_map c !! k = Some a →
  ∃ L' h', put o k v c h = Returns tt (with_list c L', h') ∧
    Repr (with_list c L') h' (promote a l) ∧
    payload h' a = Some (k, v) ∧
    (∀ b, b ≠ a → payload h' b = payload h b).
Proof.
  intros HR Hk. pose proof HR as [Hl Hcap Hle Hidx Hcnt].
  apply Hidx in Hk as Hk'. destruct Hk' as [Hin Hkey].
  unfold key_at in Hkey. destruct (h !! a) as [n|] eqn:Hn; simplify_eq/=.
  set (h1 := <[a := set_value v n]> h).
  assert (is_list (_lru_list c) h1 l) as Hl1 by (by apply is_list_update).
  destruct (move_to_front_is_list _ h1 l a Hl1 Hin)
    as (L' & h' & Hm & Hl' & Hpay).
  exists L', h'. split_and!.
  - unfold put. rewrite Hk, (store_Some _ a n) by done. simpl.
    fold h1. by rewrite Hm.
  - eapply Repr_reorder; [done..| | |].
    + intros b. by apply elem_of_promote.
    + apply length_promote; [apply Hl|done].
    + intros b. rewrite (payload_key h1 h') by done.
      unfold key_at, h1. destruct (decide (a = b)) as [->|Hne].
      * by rewrite lookup_insert_eq, Hn.
      * by rewrite lookup_insert_ne.
  - rewrite Hpay. unfold payload, h1. by rewrite lookup_insert_eq.
  - intros b Hb. rewrite Hpay. unfold payload, h1.
    by rewrite lookup_insert_ne.
Qed.

(** The growth path: the key is new and the list is below capacity. *)
Lemma put_grow o k v c (h : heap) l :
  Repr c h l → _lru_cache_map c !! k = None → size c ≠ capacity c →
  ∃ L' h',
    payload h' (fresh_addr (_lru_list c) h) = Some (k, v) ∧
    (∀ b, b ≠ fresh_addr (_lru_list c) h → payload h' b = payload h b) ∧
    put o k v c h =
      (if node_ok o then
         if index_ok o
         then Returns tt (mkCache (_capacity c) L'
                            (<[k := fresh_addr (_lru_list c) h]>
                               (_lru_cache_map c)), h')
         else Throws bad_alloc (with_list c L', h')
       else Throws std_exception (c, h)) ∧
    Repr (mkCache (_capacity c) L'
            (<[k := fresh_addr (_lru_list c) h]> (_lru_cache_map c)))
         h' (fresh_addr (_lru_list c) h :: l).
Proof.
  intros HR Hk Hne. pose proof HR as [Hl Hcap Hle Hidx Hcnt].
  rewrite (Repr_size c h l), (Repr_capacity c h l) in Hne by done.
  assert (h !! fresh_addr (_lru_list c) h = None) as Hfresh
    by apply fresh_addr_None.
  assert (fresh_addr (_lru_list c) h ∉ l) as Hnl.
  { intros Hin. destruct (is_list_allocated _ h l _ Hl Hin) as [? ?].
    congruence. }
  destruct (add_to_front_spec k v (_lru_list c) h l Hl)
    as (L' & h' & Hadd & Hl' & Hpa & Hpay).
  { unfold INT_MAX in Hcap. lia. }
  exists L', h'. split_and!; [done..| |].
  - unfold put. rewrite Hk.
    rewrite decide_False
      by (unfold list_size; rewrite (il_size _ _ _ Hl), to_size_t_small;
          unfold INT_MAX in Hcap; lia).
    destruct o as [[] ix]; simpl.
    + rewrite Hadd. unfold map_assign. simpl. rewrite Hk. by destruct ix.
    + by rewrite with_list_id.
  - split; simpl; try done.
    + lia.
    + intros k' b. destruct (decide (k = k')) as [<-|Hkk].
      * rewrite lookup_insert_eq. split.
        { intros [= <-]. split; [left|]. by apply payload_key_Some in Hpa. }
        intros [Hin Hkey]. f_equal.
        destruct (decide (b = fresh_addr (_lru_list c) h)); [done|].
        apply elem_of_cons in Hin as [?|Hin]; [done|].
        rewrite (payload_key h h') in Hkey by auto.
        assert (_lru_cache_map c !! k = Some b) by (by apply Hidx). congruence.
      * rewrite lookup_insert_ne by done. rewrite Hidx. split.
        { intros [Hin Hkey]. split; [by right|].
          rewrite (payload_key h h'); [done|]. apply Hpay. by intros ->. }
        intros [Hin Hkey]. apply elem_of_cons in Hin as [->|Hin].
        { apply payload_key_Some in Hpa. congruence. }
        split; [done|]. rewrite <- (payload_key h h'); [done|].
        apply Hpay. by intros ->.
    + rewrite map_size_insert_None by done. by rewrite Hcnt.
Qed.

(** The eviction path: the key is new and the list is at capacity. *)
Lemma put_evict o k v c (h : heap) l :
  Repr c h l → _lru_cache_map c !! k = None → size c = capacity c →
  ∃ b kb L' h',
    last l = Some b ∧ key_at h b = Some kb ∧
    _lru_cache_map c !! kb = Some b ∧
    payload h' b = Some (k, v) ∧
    (∀ a, a ≠ b → payload h' a = payload h a) ∧
    put o k v c h =
      (if index_ok o
       then Returns tt (mkCache (_capacity c) L'
                          (<[k := b]> (delete kb (_lru_cache_map c))), h')
       else Throws bad_alloc
              (mkCache (_capacity c) L' (delete kb (_lru_cache_map c)), h')) ∧
    Repr (mkCache (_capacity c) L' (<[k := b]> (delete kb (_lru_cache_map c))))
         h' (promote b l).
Proof.
  intros HR Hk Hfull. pose proof HR as [Hl Hcap Hle Hidx Hcnt].
  rewrite (Repr_size c h l), (Repr_capacity c h l) in Hfull by done.
  assert (l ≠ []) as Hne by (intros ->; simpl in Hfull; lia).
  destruct (is_list_nonempty_back _ h l Hl Hne) as (b & Hback & Hlast & Hin).
  destruct (is_list_allocated _ h l b Hl Hin) as [nb Hnb].
  set (kb := _key nb).
  assert (key_at h b = Some kb) as Hkb by (unfold key_at; by rewrite Hnb).
  assert (_lru_cache_map c !! kb = Some b) as Hmb by (by apply Hidx).
  assert (kb ≠ k) as Hkk by congruence.
  set (h1 := <[b := set_key k nb]> h).
  set (h2 := <[b := set_value v (set_key k nb)]> h1).
  assert (is_list (_lru_list c) h2 l) as Hl2.
  { unfold h2, h1. apply is_list_update; [apply lookup_insert_eq|done..|].
    by apply is_list_update. }
  destruct (move_to_front_is_list _ h2 l b Hl2 Hin)
    as (L' & h' & Hm & Hl' & Hpay).
  assert (payload h' b = Some (k, v)) as Hpb.
  { rewrite Hpay. unfold payload, h2. by rewrite lookup_insert_eq. }
  assert (∀ a, a ≠ b → payload h' a = payload h a) as Hpo.
  { intros a Ha. rewrite Hpay. unfold payload, h2, h1.
    by rewrite !lookup_insert_ne. }
  exists b, kb, L', h'. split_and!; [done..| |].
  - unfold put. rewrite Hk.
    rewrite decide_True
      by (unfold list_size; rewrite (il_size _ _ _ Hl), to_size_t_small;
          unfold INT_MAX in Hcap; lia).
    unfold list_back. rewrite Hback. simpl. rewrite Hnb. simpl.
    rewrite (store_Some _ b nb) by done. simpl. fold h1.
    rewrite (store_Some _ b (set_key k nb))
      by (unfold h1; apply lookup_insert_eq).
    simpl. fold h2. rewrite Hm. simpl.
    unfold map_assign. fold kb.
    rewrite lookup_delete_ne by done. rewrite Hk. by destruct (index_ok o).
  - apply payload_key_Some in Hpb as Hkeyb.
    assert (∀ a, a ≠ b → key_at h' a = key_at h a) as Hko
      by (intros a Ha; by apply payload_key, Hpo).
    split; cbn [_capacity _lru_list _lru_cache_map]; try done.
    + rewrite length_promote; [done|apply Hl|done].
    + intros k' a. rewrite elem_of_promote by done.
      destruct (decide (a = b)) as [->|Hab].
      * rewrite Hkeyb. destruct (decide (k = k')) as [<-|Hk'].
        { by rewrite lookup_insert_eq. }
        rewrite lookup_insert_ne by done. split; [|intros [_ ?]; congruence].
        intros [Hd1 Hd2]%lookup_delete_Some.
        apply Hidx in Hd2 as [_ Hd2]. congruence.
      * rewrite Hko by done. rewrite <- Hidx.
        destruct (decide (k = k')) as [<-|Hk'].
        { rewrite lookup_insert_eq, Hk. split; congruence. }
        rewrite lookup_insert_ne by done.
        destruct (decide (kb = k')) as [<-|Hkb'].
        { rewrite lookup_delete_eq, Hmb. split; congruence. }
        by rewrite lookup_delete_ne.
    + rewrite map_size_insert_None by (by rewrite lookup_delete_ne).
      rewrite map_size_delete_Some by eauto.
      rewrite length_promote; [|apply Hl|done].
      rewrite Hcnt. destruct l; [done|]. simpl. lia.
Qed.

(** ** [clear] on a well-formed cache *)

Lemma free_all (kvs : list (Z * positive)) (h : heap) :
  NoDup kvs.*2 → (∀ a, a ∈ kvs.*2 → is_Some (h !! a)) →
  ∃ h', foldl (λ oh kv, oh ≫= free kv.2) (Some h) kvs = Some h' ∧
        (∀ a, a ∈ kvs.*2 → h' !! a = None) ∧
        (∀ a, a ∉ kvs.*2 → h' !! a = h !! a).
Proof.
  revert h. induction kvs as [|[k a] kvs IH]; intros h Hnd Hall.
  - exists h. split_and!; [done| |done]. intros a Ha. by apply elem_of_nil in Ha.
  - rewrite fmap_cons in Hnd, Hall. simpl in Hnd, Hall.
    apply NoDup_cons in Hnd as [Ha Hnd].
    destruct (Hall a) as [n Hn]; [left|].
    destruct (IH (delete a h) Hnd) as (h' & Hfold & Hin & Hout).
    { intros b Hb. rewrite lookup_delete_ne by (by intros ->).
      apply Hall. by right. }
    exists h'. split_and!.
    + simpl. unfold free at 2. by rewrite Hn.
    + intros b. rewrite fmap_cons. simpl. intros [->|Hb]%elem_of_cons; [|auto].
      rewrite Hout by done. apply lookup_delete_eq.
    + intros b. rewrite fmap_cons. simpl. intros [Hba Hb]%not_elem_of_cons.
      rewrite Hout by done. by apply lookup_delete_ne.
Qed.

Lemma clear_spec c (h : heap) l :
  Repr c h l →
  ∃ h', clear c h = Returns tt (with_map c ∅, h') ∧
        (∀ a, a ∈ l → h' !! a = None) ∧
        (∀ a, a ∉ l → h' !! a = h !! a).
Proof.
  intros [Hl Hcap Hle Hidx Hcnt].
  assert (∀ a, a ∈ (map_to_list (_lru_cache_map c)).*2 ↔ a ∈ l) as Hvals.
  { intros a. rewrite list_elem_of_fmap. split.
    - intros ([k a'] & -> & Hka%elem_of_map_to_list). simpl.
      by apply Hidx in Hka as [? _].
    - intros Hin. destruct (is_list_allocated _ h l a Hl Hin) as [n Hn].
      exists (_key n, a). split; [done|]. apply elem_of_map_to_list, Hidx.
      split; [done|]. unfold key_at. by rewrite Hn. }
  destruct (free_all (map_to_list (_lru_cache_map c)) h) as (h' & Hf & Hin & Hout).
  - apply NoDup_fmap_2_strong; [|apply NoDup_map_to_list].
    intros [k1 a1] [k2 a2] H1%elem_of_map_to_list H2%elem_of_map_to_list Heq.
    simpl in Heq. subst a2. f_equal.
    apply Hidx in H1 as [_ H1]. apply Hidx in H2 as [_ H2]. congruence.
  - intros a Ha%Hvals. by eapply is_list_allocated.
  - exists h'. unfold clear. rewrite Hf. split_and!; [done| |].
    + intros a Ha. by apply Hin, Hvals.
    + intros a Ha. apply Hout. by rewrite Hvals.
Qed.

(** ** The invariant holds in every reachable state *)

Lemma construct_Repr n c : is_int n → construct n = inr c → Repr c ∅ [].
Proof.
  intros [_ Hmax]. unfold construct. case_decide; [done|]. intros [= <-].
  split; simpl; try done.
  - split; simpl; try done. apply NoDup_nil_2.
  - lia.
  - lia.
  - intros k a. rewrite lookup_empty. split; [done|].
    by intros [?%elem_of_nil _].
Qed.

Lemma get_preserves_Inv k c (h : heap) v c' h' :
  Inv c h → get k c h = Returns v (c', h') → Inv c' h'.
Proof.
  intros [l HR] Hget. destruct (_lru_cache_map c !! k) as [a|] eqn:Hk.
  - destruct (get_hit k c h l a HR Hk) as (n & L' & h1 & _ & _ & Hg & HR' & _).
    rewrite Hg in Hget. injection Hget as <- <- <-. by exists (promote a l).
  - unfold get in Hget. rewrite Hk in Hget. injection Hget as <- <- <-.
    by exists l.
Qed.

Lemma put_preserves_Inv o k v c (h : heap) c' h' :
  Inv c h → put o k v c h = Returns tt (c', h') → Inv c' h'.
Proof.
  intros [l HR] Hput. destruct (_lru_cache_map c !! k) as [a|] eqn:Hk.
  - destruct (put_hit o k v c h l a HR Hk) as (L' & h1 & Hp & HR' & _).
    rewrite Hp in Hput. injection Hput as <- <-. by exists (promote a l).
  - destruct (decide (size c = capacity c)) as [Hfull|Hroom].
    + destruct (put_evict o k v c h l HR Hk Hfull)
        as (b & kb & L' & h1 & _ & _ & _ & _ & _ & Hp & HR').
      rewrite Hp in Hput. destruct (index_ok o); [|done].
      injection Hput as <- <-. by exists (promote b l).
    + destruct (put_grow o k v c h l HR Hk Hroom)
        as (L' & h1 & _ & _ & Hp & HR').
      rewrite Hp in Hput. destruct (node_ok o), (index_ok o); try done.
      injection Hput as <- <-. by exists (fresh_addr (_lru_list c) h :: l).
Qed.

Lemma reachable_Inv c (h : heap) : reachable c h → Inv c h.
Proof.
  induction 1 as [n c Hn Hc|k c h v c' h' _ IH Hget|o k v c h c' h' _ IH Hput].
  - exists []. by eapply construct_Repr.
  - by eapply get_preserves_Inv.
  - by eapply put_preserves_Inv.
Qed.

(** ** The recency order after a call *)

Lemma get_Repr k c (h : heap) l v c' h' :
  Repr c h l → get k c h = Returns v (c', h') →
  Repr c' h' (order_after_get k c l).
Proof.
  intros HR Hget. unfold order_after_get.
  destruct (_lru_cache_map c !! k) as [a|] eqn:Hk.
  - destruct (get_hit k c h l a HR Hk) as (n & L' & h1 & _ & _ & Hg & HR' & _).
    rewrite Hg in Hget. by injection Hget as <- <- <-.
  - unfold get in Hget. rewrite Hk in Hget. by injection Hget as <- <- <-.
Qed.

Lemma put_Repr o k v c (h : heap) l c' h' :
  Repr c h l → put o k v c h = Returns tt (c', h') →
  Repr c' h' (order_after_put k c h l).
Proof.
  intros HR Hput. unfold order_after_put.
  destruct (_lru_cache_map c !! k) as [a|] eqn:Hk.
  - destruct (put_hit o k v c h l a HR Hk) as (L' & h1 & Hp & HR' & _).
    rewrite Hp in Hput. by injection Hput as <- <-.
  - destruct (decide (size c = capacity c)) as [Hfull|Hroom].
    + destruct (put_evict o k v c h l HR Hk Hfull)
        as (b & kb & L' & h1 & -> & _ & _ & _ & _ & Hp & HR').
      rewrite Hp in Hput. destruct (index_ok o); [|done].
      by injection Hput as <- <-.
    + destruct (put_grow o k v c h l HR Hk Hroom)
        as (L' & h1 & _ & _ & Hp & HR').
      rewrite Hp in Hput. destruct (node_ok o), (index_ok o); try done.
      by injection Hput as <- <-.
Qed.

(** ** The example states are reachable and well formed *)

Lemma is_int_2 : is_int 2.
Proof. unfold is_int, INT_MIN, INT_MAX. lia. Qed.

Lemma construct_2 : construct 2 = inr cache2.
Proof. reflexivity. Qed.

Lemma put_1_1 : put all_ok 1 1 cache2 ∅ = Returns tt (cache2_1, heap2_1).
Proof. vm_compute. reflexivity. Qed.

Lemma put_2_2 : put all_ok 2 2 cache2_1 heap2_1 = Returns tt (cache2_2, heap2_2).
Proof. vm_compute. reflexivity. Qed.

Lemma Repr_cache2 : Repr cache2 ∅ [].
Proof. exact (construct_Repr 2 cache2 is_int_2 construct_2). Qed.

Lemma Repr_cache2_1 : Repr cache2_1 heap2_1 [1%positive].
Proof. exact (put_Repr all_ok 1 1 cache2 ∅ [] _ _ Repr_cache2 put_1_1). Qed.

Lemma Repr_cache2_2 : Repr cache2_2 heap2_2 [2%positive; 1%positive].
Proof.
  exact (put_Repr all_ok 2 2 cache2_1 heap2_1 _ _ _ Repr_cache2_1 put_2_2).
Qed.

Lemma reachable_cache2_1 : reachable cache2_1 heap2_1.
Proof.
  eapply reach_put; [|exact put_1_1].
  eapply reach_construct; [exact is_int_2|exact construct_2].
Qed.

Lemma reachable_cache2_2 : reachable cache2_2 heap2_2.
Proof. eapply reach_put; [exact reachable_cache2_1|exact put_2_2]. Qed.

Lemma dom_of_payload (h h' : heap) a :
  is_Some (h !! a) → is_Some (payload h' a) →
  (∀ b, b ≠ a → payload h' b = payload h b) → dom h' = dom h.
Proof.
  intros Ha Ha' Hpay. apply set_eq; intros b. rewrite !elem_of_dom.
  destruct (decide (b = a)) as [->|Hne].
  - unfold payload in Ha'. split; [done|]. intros _.
    destruct (h' !! a); [done|]. by destruct Ha'.
  - specialize (Hpay b Hne). unfold payload in Hpay.
    destruct (h' !! b), (h !! b); simpl in *; try done;
      split; intros [? ?]; done.
Qed.

(** ** When [put] throws

    On a well-formed cache [put] throws in two situations only, both for a
    key that is not in the index: the node allocation of the growth path
    fails, and then the state is untouched; or the index insertion fails,
    which happens after the list has been changed. *)
Lemma put_throws_cases o k v c (h : heap) l e s :
  Repr c h l → put o k v c h = Throws e s →
  _lru_cache_map c !! k = None ∧
  ((size c ≠ capacity c ∧ node_ok o = false ∧ e = std_exception ∧ s = (c, h)) ∨
   (index_ok o = false ∧ e = bad_alloc)).
Proof.
  intros HR Hput. destruct (_lru_cache_map c !! k) as [a|] eqn:Hk.
  - destruct (put_hit o k v c h l a HR Hk) as (L' & h1 & Hp & _).
    congruence.
  - split; [done|]. destruct (decide (size c = capacity c)) as [Hfull|Hroom].
    + destruct (put_evict o k v c h l HR Hk Hfull)
        as (b & kb & L' & h1 & _ & _ & _ & _ & _ & Hp & _).
      rewrite Hp in Hput. destruct (index_ok o); [done|].
      right. split; congruence.
    + destruct (put_grow o k v c h l HR Hk Hroom) as (L' & h1 & _ & _ & Hp & _).
      rewrite Hp in Hput. destruct (node_ok o), (index_ok o); try done.
      * right. split; congruence.
      * left. split_and!; congruence.
      * left. split_and!; congruence.
Qed.

(** [clear] leaves the list object alone, so [size()] is what it was. *)
Lemma clear_size c (h : heap) l :
  Repr c h l →
  ∃ c' h', clear c h = Returns tt (c', h') ∧ _lru_cache_map c' = ∅ ∧
           capacity c' = capacity c ∧ size c' = Z.of_nat (length l).
Proof.
  intros HR. destruct (clear_spec c h l HR) as (h' & Hc & _).
  exists (with_map c ∅), h'. split_and!; [done..|].
  by rewrite <- (Repr_size c h l).
Qed.

(** * The claims *)

(** C7: for every [int] capacity [cap], constructing a cache fails with
    [InvalidCapacity] and yields no cache object when [cap <= 0]; when
    [cap > 0] it succeeds with an empty cache (empty index, empty list),
    [size() = 0] and [capacity() = cap]. *)
Theorem construct_spec (cap : Z) :
  is_int cap →
  (cap <= 0 ∧ construct cap = inl InvalidCapacity) ∨
  (0 < cap ∧ ∃ c, construct cap = inr c ∧
     _lru_cache_map c = ∅ ∧ _front (_lru_list c) = None ∧
     _back (_lru_list c) = None ∧ size c = 0 ∧ capacity c = cap).
Proof.
  intros [Hmin Hmax]. unfold construct. case_decide as Hc.
  - left. split; [lia|done].
  - right. split; [lia|]. eexists. split; [done|].
    split_and!; try done. unfold capacity; simpl. apply to_size_t_small.
    unfold INT_MAX in Hmax. lia.
Qed.

Lemma construct_spec_witness :
  is_int 2 ∧
  ((2 <= 0 ∧ construct 2 = inl InvalidCapacity) ∨
   (0 < 2 ∧ ∃ c, construct 2 = inr c ∧
      _lru_cache_map c = ∅ ∧ _front (_lru_list c) = None ∧
      _back (_lru_list c) = None ∧ size c = 0 ∧ capacity c = 2)).
Proof.
  assert (is_int 2) as H by (unfold is_int, INT_MIN, INT_MAX; lia).
  split; [exact H|exact (construct_spec 2 H)].
Defined.

(** C5: in every well-formed cache state, [get(k)] on an absent key returns
    the not-found sentinel and leaves the whole state (list, index, size,
    heap) as it was; on a present key it returns, yields the value the
    entry holds, and leaves that entry at the front of the recency order,
    the other entries keeping their relative order; the index, the
    payloads and the size do not change.  In both cases [get] returns. *)
Theorem get_spec (k : Z) (c : LRUCache) (h : heap) (l : list positive) :
  Repr c h l →
  match _lru_cache_map c !! k with
  | None => get k c h = Returns KEY_NOT_FOUND_RET_VAL (c, h)
  | Some a =>
      ∃ v c' h', value_at h a = Some v ∧
        get k c h = Returns v (c', h') ∧
        Repr c' h' (promote a l) ∧
        _front (_lru_list c') = Some a ∧ key_at h' a = Some k ∧
        _lru_cache_map c' = _lru_cache_map c ∧ size c' = size c ∧
        (∀ b, payload h' b = payload h b)
  end.
Proof.
  intros HR. destruct (_lru_cache_map c !! k) as [a|] eqn:Hk.
  - destruct (get_hit k c h l a HR Hk)
      as (n & L' & h' & Hn & Hkey & Hg & HR' & Hpay).
    exists (_value n), (with_list c L'), h'. split_and!; try done.
    + unfold value_at. by rewrite Hn.
    + by rewrite (il_front _ _ _ (rp_list _ _ _ HR')).
    + rewrite (payload_key h h') by done. unfold key_at. rewrite Hn. simpl.
      congruence.
    + by rewrite (Repr_size _ _ _ HR'), (Repr_size _ _ _ HR),
        (length_promote a l) by (apply HR || by apply (rp_index _ _ _ HR k a)).
  - unfold get. by rewrite Hk.
Qed.

Lemma get_spec_witness :
  Repr cache2_2 heap2_2 [2%positive; 1%positive] ∧
  ∃ v c' h', value_at heap2_2 1%positive = Some v ∧
    get 1 cache2_2 heap2_2 = Returns v (c', h') ∧
    Repr c' h' (promote 1%positive [2%positive; 1%positive]) ∧
    _front (_lru_list c') = Some 1%positive ∧
    key_at h' 1%positive = Some 1 ∧
    _lru_cache_map c' = _lru_cache_map cache2_2 ∧ size c' = size cache2_2 ∧
    (∀ b, payload h' b = payload heap2_2 b).
Proof.
  split; [exact Repr_cache2_2|].
  exact (get_spec 1 cache2_2 heap2_2 _ Repr_cache2_2).
Defined.

(** C9: in every well-formed cache state, for a present key [k], two calls
    of [get(k)] in a row return the same value, and the second call leaves
    the state, hence the recency list, exactly as the first one left it. *)
Theorem get_twice (k : Z) (c : LRUCache) (h : heap) (l : list positive) :
  Repr c h l → is_Some (_lru_cache_map c !! k) →
  ∃ v c' h', get k c h = Returns v (c', h') ∧
             get k c' h' = Returns v (c', h').
Proof.
  intros HR [a Hk].
  destruct (get_hit k c h l a HR Hk)
    as (n & L' & h' & Hn & Hkey & Hg & HR' & Hpay).
  exists (_value n), (with_list c L'), h'. split; [done|].
  pose proof (il_front _ _ _ (rp_list _ _ _ HR')) as Hf. simpl in Hf.
  unfold get. simpl. rewrite Hk.
  rewrite move_to_front_front by done.
  specialize (Hpay a). unfold payload in Hpay. rewrite Hn in Hpay.
  destruct (h' !! a) as [n'|]; [|done]. simpl in Hpay.
  injection Hpay as _ ->. done.
Qed.

Lemma get_twice_witness :
  Repr cache2_2 heap2_2 [2%positive; 1%positive] ∧
  is_Some (_lru_cache_map cache2_2 !! 1) ∧
  ∃ v c' h', get 1 cache2_2 heap2_2 = Returns v (c', h') ∧
             get 1 c' h' = Returns v (c', h').
Proof.
  assert (is_Some (_lru_cache_map cache2_2 !! 1)) as H
    by (exists 1%positive; reflexivity).
  split_and!; [exact Repr_cache2_2|exact H|].
  exact (get_twice 1 cache2_2 heap2_2 _ Repr_cache2_2 H).
Defined.

(** C6: in every well-formed cache state, [put(k, v)] on a key [k] already
    in the index returns (whatever the allocator would do), overwrites the
    value of [k]'s entry with [v] and moves that entry to the front of the
    recency order; nothing else changes: the index, the capacity, the size,
    the set of allocated entries and the payload of every other entry are
    the same, so no entry is evicted and none is created. *)
Theorem put_present (o : alloc) (k v : Z) (c : LRUCache) (h : heap)
    (l : list positive) (a : positive) :
  Repr c h l → _lru_cache_map c !! k = Some a →
  ∃ c' h', put o k v c h = Returns tt (c', h') ∧
    Repr c' h' (promote a l) ∧
    payload h' a = Some (k, v) ∧
    (∀ b, b ≠ a → payload h' b = payload h b) ∧
    _lru_cache_map c' = _lru_cache_map c ∧
    _capacity c' = _capacity c ∧ size c' = size c ∧ dom h' = dom h.
Proof.
  intros HR Hk.
  destruct (put_hit o k v c h l a HR Hk) as (L' & h' & Hp & HR' & Hpa & Hpo).
  assert (a ∈ l) as Hin by (by apply (rp_index _ _ _ HR k a)).
  exists (with_list c L'), h'. split_and!; try done.
  - by rewrite (Repr_size _ _ _ HR'), (Repr_size _ _ _ HR),
      (length_promote a l) by (apply HR || done).
  - apply (dom_of_payload h h' a); [|by rewrite Hpa|done].
    eapply is_list_allocated; [apply HR|done].
Qed.

Lemma put_present_witness :
  Repr cache2_2 heap2_2 [2%positive; 1%positive] ∧
  _lru_cache_map cache2_2 !! 1 = Some 1%positive ∧
  ∃ c' h', put all_ok 1 10 cache2_2 heap2_2 = Returns tt (c', h') ∧
    Repr c' h' (promote 1%positive [2%positive; 1%positive]) ∧
    payload h' 1%positive = Some (1, 10) ∧
    (∀ b, b ≠ 1%positive → payload h' b = payload heap2_2 b) ∧
    _lru_cache_map c' = _lru_cache_map cache2_2 ∧
    _capacity c' = _capacity cache2_2 ∧ size c' = size cache2_2 ∧
    dom h' = dom heap2_2.
Proof.
  assert (_lru_cache_map cache2_2 !! 1 = Some 1%positive) as H by reflexivity.
  split_and!; [exact Repr_cache2_2|exact H|].
  exact (put_present all_ok 1 10 cache2_2 heap2_2 _ _ Repr_cache2_2 H).
Defined.

(** The eviction path where it works: in every well-formed cache at full
    capacity, [put(k, v)] on a key [k] that is not in the index (the index
    insertion getting its memory) returns; the victim is the back entry
    [b] of the recency list, whose
    old key [kb] is erased from the index; [b] itself is kept and now
    holds [k] and [v], no entry being allocated or freed and every other
    entry keeping its payload; [b] is moved to the front; the index maps
    [k] to [b]; and [get(kb)] right afterwards returns the not-found
    sentinel. *)
Theorem put_at_capacity (o : alloc) (k v : Z) (c : LRUCache) (h : heap)
    (l : list positive) :
  Repr c h l → size c = capacity c → _lru_cache_map c !! k = None →
  index_ok o = true →
  ∃ b kb c' h',
    last l = Some b ∧ _back (_lru_list c) = Some b ∧ key_at h b = Some kb ∧
    put o k v c h = Returns tt (c', h') ∧
    _lru_cache_map c' = <[k := b]> (delete kb (_lru_cache_map c)) ∧
    payload h' b = Some (k, v) ∧
    (∀ a, a ≠ b → payload h' a = payload h a) ∧
    dom h' = dom h ∧ size c' = size c ∧
    Repr c' h' (promote b l) ∧ _front (_lru_list c') = Some b ∧
    get kb c' h' = Returns KEY_NOT_FOUND_RET_VAL (c', h').
Proof.
  intros HR Hfull Hk Hix.
  destruct (put_evict o k v c h l HR Hk Hfull)
    as (b & kb & L' & h' & Hlast & Hkb & Hmb & Hpb & Hpo & Hp & HR').
  rewrite Hix in Hp.
  assert (b ∈ l) as Hin by (by apply last_Some_elem_of).
  eexists b, kb, _, h'. split_and!; try done.
  - by rewrite (il_back _ _ _ (rp_list _ _ _ HR)).
  - apply (dom_of_payload h h' b); [|by rewrite Hpb|done].
    eapply is_list_allocated; [apply HR|done].
  - by rewrite (Repr_size _ _ _ HR'), (Repr_size _ _ _ HR),
      (length_promote b l) by (apply HR || done).
  - by rewrite (il_front _ _ _ (rp_list _ _ _ HR')).
  - unfold get. simpl. rewrite lookup_insert_ne by congruence.
    by rewrite lookup_delete_eq.
Qed.

Lemma put_at_capacity_witness :
  Repr cache2_2 heap2_2 [2%positive; 1%positive] ∧
  size cache2_2 = capacity cache2_2 ∧
  _lru_cache_map cache2_2 !! 3 = None ∧
  index_ok all_ok = true ∧
  ∃ b kb c' h',
    last [2%positive; 1%positive] = Some b ∧
    _back (_lru_list cache2_2) = Some b ∧ key_at heap2_2 b = Some kb ∧
    put all_ok 3 3 cache2_2 heap2_2 = Returns tt (c', h') ∧
    _lru_cache_map c' = <[3 := b]> (delete kb (_lru_cache_map cache2_2)) ∧
    payload h' b = Some (3, 3) ∧
    (∀ a, a ≠ b → payload h' a = payload heap2_2 a) ∧
    dom h' = dom heap2_2 ∧ size c' = size cache2_2 ∧
    Repr c' h' (promote b [2%positive; 1%positive]) ∧
    _front (_lru_list c') = Some b ∧
    get kb c' h' = Returns KEY_NOT_FOUND_RET_VAL (c', h').
Proof.
  assert (size cache2_2 = capacity cache2_2) as H1 by reflexivity.
  assert (_lru_cache_map cache2_2 !! 3 = None) as H2 by reflexivity.
  assert (index_ok all_ok = true) as H3 by reflexivity.
  split_and!; [exact Repr_cache2_2|exact H1|exact H2|exact H3|].
  exact (put_at_capacity all_ok 3 3 cache2_2 heap2_2 _ Repr_cache2_2 H1 H2 H3).
Defined.

(** C3 (the code departs from it): a cache with [size() == capacity()] and
    a key that is not in the index does not always get the eviction of the
    back entry and the new index entry.  After [put(1,1); put(2,2); clear()] the cache still
    counts 2 entries of capacity 2 and key 3 is absent, yet [put(3,3)]
    reads the key of the back node that [clear()] freed, whatever the
    allocator does: undefined behaviour.  And on the cache holding keys 1
    and 2, [put(3,3)] whose index insertion gets no memory throws with the
    back entry already overwritten and key 1 erased, and key 3 is not
    recorded in the index. *)
Theorem put_at_capacity_fails :
  (reachable cache2_2 heap2_2 ∧
   ∃ c' h', clear cache2_2 heap2_2 = Returns tt (c', h') ∧
     size c' = capacity c' ∧ _lru_cache_map c' !! 3 = None ∧
     ∀ o, put o 3 3 c' h' = Undefined) ∧
  (reachable cache2_2 heap2_2 ∧ size cache2_2 = capacity cache2_2 ∧
   _lru_cache_map cache2_2 !! 3 = None ∧
   ∃ c' h', put (mkAlloc true false) 3 3 cache2_2 heap2_2
              = Throws bad_alloc (c', h') ∧
     _lru_cache_map c' !! 3 = None ∧ _lru_cache_map c' !! 1 = None ∧
     payload h' 1%positive = Some (3, 3)).
Proof.
  split.
  - split; [exact reachable_cache2_2|].
    eexists _, _. split; [vm_compute; reflexivity|].
    split_and!; [reflexivity..|].
    intros [[] []]; vm_compute; reflexivity.
  - split; [exact reachable_cache2_2|]. split; [reflexivity|].
    split; [reflexivity|].
    eexists _, _. split; [vm_compute; reflexivity|].
    split_and!; vm_compute; reflexivity.
Qed.

(** C4: on a cache of capacity 2, the calls put(1,1); put(2,2); get(1);
    put(3,3); get(2); put(4,4); get(1); get(3); get(4) give: get(1) = 1;
    put(3,3) evicts key 2 (the index goes from keys 1, 2 to keys 1, 3);
    get(2) = -1; put(4,4) evicts key 1 (the index goes to keys 3, 4); and
    finally get(1) = -1, get(3) = 3, get(4) = 4. *)
Theorem scenario_capacity_2 :
  construct 2 = inr cache2 ∧
  returned [Put 1 1; Put 2 2; Get 1; Put 3 3; Get 2; Put 4 4;
            Get 1; Get 3; Get 4] cache2
    = Some [1; KEY_NOT_FOUND_RET_VAL; KEY_NOT_FOUND_RET_VAL; 3; 4] ∧
  keys_after [Put 1 1; Put 2 2; Get 1] cache2 = Some {[1; 2]} ∧
  keys_after [Put 1 1; Put 2 2; Get 1; Put 3 3] cache2 = Some {[1; 3]} ∧
  keys_after [Put 1 1; Put 2 2; Get 1; Put 3 3; Get 2] cache2
    = Some {[1; 3]} ∧
  keys_after [Put 1 1; Put 2 2; Get 1; Put 3 3; Get 2; Put 4 4] cache2
    = Some {[3; 4]}.
Proof. split_and!; vm_compute; reflexivity. Qed.

(** C10: the not-found sentinel is the integer -1, and there is a reachable
    cache (reached by [put(7, -1)]) in which key 7 is present and [get(7)]
    returns -1, exactly what [get] returns there for the absent key 8. *)
Theorem sentinel_ambiguous :
  KEY_NOT_FOUND_RET_VAL = -1 ∧
  ∃ c h, put all_ok 7 (-1) cache2 ∅ = Returns tt (c, h) ∧
    reachable c h ∧
    is_Some (_lru_cache_map c !! 7) ∧ _lru_cache_map c !! 8 = None ∧
    (∃ s, get 7 c h = Returns KEY_NOT_FOUND_RET_VAL s) ∧
    (∃ s, get 8 c h = Returns KEY_NOT_FOUND_RET_VAL s).
Proof.
  split; [done|].
  destruct (put all_ok 7 (-1) cache2 ∅) as [[] [c h]| |] eqn:Hput;
    try (vm_compute in Hput; discriminate).
  exists c, h. split; [done|].
  split.
  { eapply reach_put; [|exact Hput].
    eapply reach_construct; [exact is_int_2|exact construct_2]. }
  vm_compute in Hput. injection Hput as <- <-.
  split_and!.
  - eexists. vm_compute. reflexivity.
  - vm_compute. reflexivity.
  - eexists. vm_compute. reflexivity.
  - eexists. vm_compute. reflexivity.
Qed.

(** C1 (the code departs from it): on the reachable cache of capacity 2
    that holds key 1, [clear()] returns, frees the entry and empties the
    index, and [capacity()] is unchanged, but [size()] still returns 1:
    the list object keeps its count and its pointers to the freed node. *)
Theorem clear_leaves_size :
  reachable cache2_1 heap2_1 ∧
  ∃ c', clear cache2_1 heap2_1 = Returns tt (c', ∅) ∧
    _lru_cache_map c' = ∅ ∧ capacity c' = capacity cache2_1 ∧
    size c' = 1 ∧ _front (_lru_list c') = Some 1%positive ∧
    _back (_lru_list c') = Some 1%positive.
Proof.
  split; [exact reachable_cache2_1|].
  eexists. split; [vm_compute; reflexivity|]. by split_and!.
Qed.

(** C2 (the code departs from it): on the reachable cache of capacity 2
    that holds keys 1 and 2, [clear()] returns a state in which the index
    has no key while the list still counts 2 entries, so the invariant
    does not hold after this public operation. *)
Theorem clear_breaks_invariant :
  reachable cache2_2 heap2_2 ∧ Inv cache2_2 heap2_2 ∧
  ∃ c' h', clear cache2_2 heap2_2 = Returns tt (c', h') ∧
    base.size (_lru_cache_map c') = 0%nat ∧ size c' = 2 ∧ ¬ Inv c' h'.
Proof.
  split; [exact reachable_cache2_2|].
  split; [eexists; exact Repr_cache2_2|].
  eexists _, _. split; [vm_compute; reflexivity|].
  split_and!; [done..|].
  intros [l HR].
  assert (Z.of_nat (length l) = 2) as Hsz
    by (by rewrite <- (Repr_size _ _ _ HR)).
  assert (length l = 0%nat) as Hcnt by (by rewrite <- (rp_count _ _ _ HR)).
  lia.
Qed.

(** C8 (the code departs from it): [_lru_cache_map[key] = new_node] is
    made after the list has been changed, and its allocation can fail.
    At full capacity (keys 1 and 2, capacity 2) [put(3,3)] then throws,
    with key 1 already erased from the index and its entry overwritten and
    moved to the front; on the growth path (key 1, capacity 2) [put(2,2)]
    then throws with the new entry linked and counted but not indexed. *)
Theorem put_index_allocation_failure :
  (reachable cache2_2 heap2_2 ∧ size cache2_2 = capacity cache2_2 ∧
   _lru_cache_map cache2_2 !! 3 = None ∧
   ∃ c' h', put (mkAlloc true false) 3 3 cache2_2 heap2_2
              = Throws bad_alloc (c', h') ∧
     _lru_cache_map c' = {[ 2 := 2%positive ]} ∧ size c' = 2 ∧
     payload h' 1%positive = Some (3, 3) ∧
     _front (_lru_list c') = Some 1%positive ∧ ¬ Inv c' h') ∧
  (reachable cache2_1 heap2_1 ∧ size cache2_1 ≠ capacity cache2_1 ∧
   _lru_cache_map cache2_1 !! 2 = None ∧
   ∃ c' h', put (mkAlloc true false) 2 2 cache2_1 heap2_1
              = Throws bad_alloc (c', h') ∧
     _lru_cache_map c' = {[ 1 := 1%positive ]} ∧ size c' = 2 ∧
     payload h' 2%positive = Some (2, 2) ∧ ¬ Inv c' h').
Proof.
  split.
  - split; [exact reachable_cache2_2|]. split; [reflexivity|].
    split; [reflexivity|].
    eexists _, _. split; [vm_compute; reflexivity|].
    split_and!; [vm_compute; reflexivity..|].
    intros [l HR].
    assert (Z.of_nat (length l) = 2) as Hsz
      by (by rewrite <- (Repr_size _ _ _ HR)).
    assert (length l = 1%nat) as Hcnt by (by rewrite <- (rp_count _ _ _ HR)).
    lia.
  - split; [exact reachable_cache2_1|]. split; [by vm_compute|].
    split; [reflexivity|].
    eexists _, _. split; [vm_compute; reflexivity|].
    split_and!; [vm_compute; reflexivity..|].
    intros [l HR].
    assert (Z.of_nat (length l) = 2) as Hsz
      by (by rewrite <- (Repr_size _ _ _ HR)).
    assert (length l = 1%nat) as Hcnt by (by rewrite <- (rp_count _ _ _ HR)).
    lia.
Qed.

(** * Further properties of the code *)

(** ** What a call of [put] does when its allocations succeed *)

Lemma peek_same k' c c' (h h' : heap) l :
  Repr c h l →
  _lru_cache_map c' !! k' = _lru_cache_map c !! k' →
  (∀ a, _lru_cache_map c !! k' = Some a → payload h' a = payload h a) →
  peek k' c' h' = peek k' c h.
Proof.
  intros HR Hm Hp. unfold peek. rewrite Hm.
  destruct (_lru_cache_map c !! k') as [a|]; [|done]. simpl.
  apply payload_value. by apply Hp.
Qed.

Lemma put_all_ok_effect k v c (h : heap) l :
  Repr c h l →
  ∃ c' h' a, put all_ok k v c h = Returns tt (c', h') ∧
    Repr c' h' (order_after_put k c h l) ∧
    head (order_after_put k c h l) = Some a ∧
    _lru_cache_map c' !! k = Some a ∧ payload h' a = Some (k, v) ∧
    _capacity c' = _capacity c ∧
    (∀ k', k' ≠ k →
       peek k' c' h' =
         if decide (evicted k c h = Some k') then None else peek k' c h) ∧
    (∀ x, is_Some (h' !! x) → is_Some (h !! x) ∨ x = a) ∧
    (∀ x, x ∈ l → x ∈ order_after_put k c h l).
Proof.
  intros HR. pose proof HR as [Hl Hcap Hle Hidx Hcnt].
  unfold order_after_put, evicted.
  destruct (_lru_cache_map c !! k) as [a|] eqn:Hk.
  - destruct (put_hit all_ok k v c h l a HR Hk)
      as (L' & h' & Hp & HR' & Hpa & Hpo).
    assert (a ∈ l ∧ key_at h a = Some k) as [Hin Hka] by (by apply Hidx).
    exists (with_list c L'), h', a. split_and!; try done.
    + intros k' Hk'. rewrite decide_False by done.
      apply (peek_same k' c _ h h' l); [done..|].
      intros b Hb. apply Hpo. intros ->.
      apply Hidx in Hb as [_ Hb]. congruence.
    + intros x Hx. destruct (decide (x = a)) as [->|Hne]; [by right|left].
      specialize (Hpo x Hne). unfold payload in Hpo.
      destruct (h !! x); [done|]. destruct Hx as [? Hx].
      by rewrite Hx in Hpo.
    + intros x Hx. by apply elem_of_promote.
  - destruct (decide (size c = capacity c)) as [Hfull|Hroom].
    + destruct (put_evict all_ok k v c h l HR Hk Hfull)
        as (b & kb & L' & h' & Hlast & Hkb & Hmb & Hpb & Hpo & Hp & HR').
      simpl in Hp. rewrite Hlast.
      assert (b ∈ l) as Hin by (by apply last_Some_elem_of).
      eexists _, h', b. split_and!; try done.
      * simpl. apply lookup_insert_eq.
      * intros k' Hk'. unfold list_back.
        rewrite (il_back _ _ _ Hl), Hlast. simpl. rewrite Hkb.
        destruct (decide (Some kb = Some k')) as [[= <-]|Hne].
        { unfold peek. simpl. rewrite lookup_insert_ne by done.
          by rewrite lookup_delete_eq. }
        apply (peek_same k' c _ h h' l); [done| |].
        { simpl. rewrite lookup_insert_ne by done.
          apply lookup_delete_ne. congruence. }
        intros a Ha. apply Hpo. intros ->.
        apply Hidx in Ha as [_ Ha]. congruence.
      * intros x Hx. destruct (decide (x = b)) as [->|Hne]; [by right|left].
        specialize (Hpo x Hne). unfold payload in Hpo.
        destruct (h !! x); [done|]. destruct Hx as [? Hx].
        by rewrite Hx in Hpo.
      * intros x Hx. by apply elem_of_promote.
    + destruct (put_grow all_ok k v c h l HR Hk Hroom)
        as (L' & h' & Hpa & Hpo & Hp & HR').
      simpl in Hp.
      assert (fresh_addr (_lru_list c) h ∉ l) as Hnl.
      { intros Hin. destruct (is_list_allocated _ h l _ Hl Hin) as [? Hx].
        by rewrite fresh_addr_None in Hx. }
      eexists _, h', (fresh_addr (_lru_list c) h). split_and!; try done.
      * simpl. apply lookup_insert_eq.
      * intros k' Hk'. rewrite decide_False by done.
        apply (peek_same k' c _ h h' l); [done| |].
        { simpl. by apply lookup_insert_ne. }
        intros a Ha. apply Hpo. intros ->.
        apply Hidx in Ha as [Ha _]. done.
      * intros x Hx.
        destruct (decide (x = fresh_addr (_lru_list c) h)) as [->|Hne];
          [by right|left].
        specialize (Hpo x Hne). unfold payload in Hpo.
        destruct (h !! x); [done|]. destruct Hx as [? Hx].
        by rewrite Hx in Hpo.
      * intros x Hx. by right.
Qed.

Lemma get_front_hit k c (h : heap) l a v :
  Repr c h l → _lru_cache_map c !! k = Some a → head l = Some a →
  value_at h a = Some v → get k c h = Returns v (c, h).
Proof.
  intros HR Hk Hhead Hv. unfold get. rewrite Hk.
  rewrite move_to_front_front
    by (by rewrite (il_front _ _ _ (rp_list _ _ _ HR))).
  unfold value_at in Hv. destruct (h !! a) as [n|]; simplify_eq/=.
  by rewrite with_list_id.
Qed.

(** X1: on a well-formed cache, [put(k, v)] whose allocations succeed
    returns, and [get(k)] right after it returns [v] and changes nothing,
    the entry of [k] being the front of the list already. *)
Theorem put_then_get (k v : Z) (c : LRUCache) (h : heap) (l : list positive) :
  Repr c h l →
  ∃ c' h' a, put all_ok k v c h = Returns tt (c', h') ∧
    _front (_lru_list c') = Some a ∧ key_at h' a = Some k ∧
    get k c' h' = Returns v (c', h').
Proof.
  intros HR.
  destruct (put_all_ok_effect k v c h l HR)
    as (c' & h' & a & Hp & HR' & Hhead & Hm & Hpa & _).
  exists c', h', a. split_and!; [done| | |].
  - by rewrite (il_front _ _ _ (rp_list _ _ _ HR')).
  - by eapply payload_key_Some.
  - eapply get_front_hit; [done..|]. by eapply payload_value_Some.
Qed.

Lemma put_then_get_witness :
  Repr cache2_2 heap2_2 [2%positive; 1%positive] ∧
  ∃ c' h' a, put all_ok 5 50 cache2_2 heap2_2 = Returns tt (c', h') ∧
    _front (_lru_list c') = Some a ∧ key_at h' a = Some 5 ∧
    get 5 c' h' = Returns 50 (c', h').
Proof.
  split; [exact Repr_cache2_2|].
  exact (put_then_get 5 50 cache2_2 heap2_2 _ Repr_cache2_2).
Defined.

(** X2: on a well-formed cache, [get(k)] returns the value held for [k],
    or the sentinel when there is none, and the value held for every key,
    [k] included, is the same after the call: [get] only reorders. *)
Theorem get_keeps_contents (k : Z) (c : LRUCache) (h : heap)
    (l : list positive) :
  Repr c h l →
  ∃ c' h',
    get k c h = Returns (default KEY_NOT_FOUND_RET_VAL (peek k c h)) (c', h') ∧
    ∀ k', peek k' c' h' = peek k' c h.
Proof.
  intros HR. unfold peek at 1.
  destruct (_lru_cache_map c !! k) as [a|] eqn:Hk.
  - destruct (get_hit k c h l a HR Hk)
      as (n & L' & h' & Hn & Hkey & Hg & HR' & Hpay).
    exists (with_list c L'), h'. split.
    + simpl. unfold value_at. by rewrite Hn.
    + intros k'. by apply (peek_same k' c _ h h' l).
  - exists c, h. split; [|done]. unfold get. by rewrite Hk.
Qed.

Lemma get_keeps_contents_witness :
  Repr cache2_2 heap2_2 [2%positive; 1%positive] ∧
  ∃ c' h',
    get 1 cache2_2 heap2_2
      = Returns (default KEY_NOT_FOUND_RET_VAL (peek 1 cache2_2 heap2_2))
                (c', h') ∧
    ∀ k', peek k' c' h' = peek k' cache2_2 heap2_2.
Proof.
  split; [exact Repr_cache2_2|].
  exact (get_keeps_contents 1 cache2_2 heap2_2 _ Repr_cache2_2).
Defined.

(** X3: on a well-formed cache, [put(k, v)] whose allocations succeed
    leaves [k] holding [v] and every other key holding what it held,
    except the one key it evicts (the key of the back entry, and only when
    [k] is new and the cache is full), which holds nothing afterwards. *)
Theorem put_other_keys (k v : Z) (c : LRUCache) (h : heap)
    (l : list positive) :
  Repr c h l →
  ∃ c' h', put all_ok k v c h = Returns tt (c', h') ∧
    peek k c' h' = Some v ∧
    ∀ k', k' ≠ k →
      peek k' c' h' =
        if decide (evicted k c h = Some k') then None else peek k' c h.
Proof.
  intros HR.
  destruct (put_all_ok_effect k v c h l HR)
    as (c' & h' & a & Hp & HR' & Hhead & Hm & Hpa & _ & Hother & _).
  exists c', h'. split_and!; [done| |done].
  unfold peek. rewrite Hm. simpl. by eapply payload_value_Some.
Qed.

Lemma put_other_keys_witness :
  Repr cache2_2 heap2_2 [2%positive; 1%positive] ∧
  ∃ c' h', put all_ok 3 3 cache2_2 heap2_2 = Returns tt (c', h') ∧
    peek 3 c' h' = Some 3 ∧
    ∀ k', k' ≠ 3 →
      peek k' c' h' =
        if decide (evicted 3 cache2_2 heap2_2 = Some k') then None
        else peek k' cache2_2 heap2_2.
Proof.
  split; [exact Repr_cache2_2|].
  exact (put_other_keys 3 3 cache2_2 heap2_2 _ Repr_cache2_2).
Defined.

(** X4: [get] and [put] are memory safe on a well-formed cache: whatever
    the key, the value and the allocator do, neither dereferences a null
    or dangling pointer, and [get] does not throw. *)
Theorem get_put_defined (o : alloc) (k v : Z) (c : LRUCache) (h : heap) :
  Inv c h →
  (∃ r s, get k c h = Returns r s) ∧ put o k v c h ≠ Undefined.
Proof.
  intros [l HR]. split.
  - destruct (_lru_cache_map c !! k) as [a|] eqn:Hk.
    + destruct (get_hit k c h l a HR Hk) as (n & L' & h' & _ & _ & Hg & _).
      eauto.
    + unfold get. rewrite Hk. eauto.
  - destruct (_lru_cache_map c !! k) as [a|] eqn:Hk.
    + destruct (put_hit o k v c h l a HR Hk) as (L' & h' & -> & _). done.
    + destruct (decide (size c = capacity c)) as [Hfull|Hroom].
      * destruct (put_evict o k v c h l HR Hk Hfull)
          as (b & kb & L' & h' & _ & _ & _ & _ & _ & -> & _).
        by destruct (index_ok o).
      * destruct (put_grow o k v c h l HR Hk Hroom)
          as (L' & h' & _ & _ & -> & _).
        by destruct (node_ok o), (index_ok o).
Qed.

Lemma get_put_defined_witness :
  Inv cache2_2 heap2_2 ∧
  (∃ r s, get 9 cache2_2 heap2_2 = Returns r s) ∧
  put (mkAlloc false false) 9 9 cache2_2 heap2_2 ≠ Undefined.
Proof.
  assert (Inv cache2_2 heap2_2) as H by (eexists; exact Repr_cache2_2).
  split; [exact H|].
  exact (get_put_defined (mkAlloc false false) 9 9 cache2_2 heap2_2 H).
Defined.

Lemma last_ne_head (a x : positive) (r : list positive) :
  NoDup (a :: x :: r) → last (a :: x :: r) ≠ Some a.
Proof.
  intros [Ha _]%NoDup_cons. rewrite last_cons_cons.
  intros Hl%last_Some_elem_of. done.
Qed.

(** X5: on a well-formed cache that holds at least two entries, the key
    that was just read is not the one the next [put] evicts: after
    [get(k)] on a present key and [put(k', v')] on any other key (its
    allocations succeeding), [get(k)] still returns the same value. *)
Theorem recently_read_survives (k k' v' : Z) (c : LRUCache) (h : heap)
    (l : list positive) :
  Repr c h l → 2 <= size c → is_Some (_lru_cache_map c !! k) → k' ≠ k →
  ∃ v c1 h1 c2 h2 s,
    get k c h = Returns v (c1, h1) ∧
    put all_ok k' v' c1 h1 = Returns tt (c2, h2) ∧
    get k c2 h2 = Returns v s.
Proof.
  intros HR Hsz [a Hk] Hne.
  destruct (get_hit k c h l a HR Hk)
    as (n & L' & h1 & Hn & Hkey & Hg & HR1 & Hpay1).
  set (c1 := with_list c L') in *.
  assert (a ∈ l) as Hin by (by apply (rp_index _ _ _ HR k a)).
  assert (peek k c1 h1 = Some (_value n)) as Hpeek1.
  { unfold peek. simpl. rewrite Hk. simpl.
    rewrite (payload_value h h1) by done. unfold value_at. by rewrite Hn. }
  destruct (put_all_ok_effect k' v' c1 h1 _ HR1)
    as (c2 & h2 & a' & Hp & HR2 & _ & _ & _ & _ & Hother & _).
  assert (evicted k' c1 h1 ≠ Some k) as Hev.
  { unfold evicted. destruct (_lru_cache_map c1 !! k'); [done|].
    case_decide; [|done]. unfold list_back.
    rewrite (il_back _ _ _ (rp_list _ _ _ HR1)).
    destruct (last (promote a l)) as [b|] eqn:Hlast; [|done]. simpl.
    intros Hkb.
    assert (_lru_cache_map c1 !! k = Some b) as Hmb.
    { apply (rp_index _ _ _ HR1). split; [|done].
      by apply last_Some_elem_of. }
    simpl in Hmb. rewrite Hk in Hmb. injection Hmb as <-.
    pose proof (il_nodup _ _ _ (rp_list _ _ _ HR1)) as Hnd.
    pose proof (length_promote a l (il_nodup _ _ _ (rp_list _ _ _ HR)) Hin)
      as Hlen.
    rewrite (Repr_size _ _ _ HR) in Hsz.
    unfold promote in *. destruct (filter (λ x, x ≠ a) l) as [|x r].
    { simpl in Hlen. lia. }
    by apply (last_ne_head a x r). }
  specialize (Hother k (not_eq_sym Hne)).
  rewrite decide_False in Hother by done. rewrite Hpeek1 in Hother.
  unfold peek in Hother.
  destruct (_lru_cache_map c2 !! k) as [a2|] eqn:Hk2; [|done].
  simpl in Hother.
  destruct (get_hit k c2 h2 _ a2 HR2 Hk2)
    as (n2 & L2 & h3 & Hn2 & _ & Hg2 & _).
  unfold value_at in Hother. rewrite Hn2 in Hother. injection Hother as Hv.
  rewrite Hv in Hg2. eauto 10.
Qed.

Lemma recently_read_survives_witness :
  Repr cache2_2 heap2_2 [2%positive; 1%positive] ∧
  2 <= size cache2_2 ∧ is_Some (_lru_cache_map cache2_2 !! 1) ∧ 3 ≠ 1 ∧
  ∃ v c1 h1 c2 h2 s,
    get 1 cache2_2 heap2_2 = Returns v (c1, h1) ∧
    put all_ok 3 30 c1 h1 = Returns tt (c2, h2) ∧
    get 1 c2 h2 = Returns v s.
Proof.
  assert (2 <= size cache2_2) as H1 by (vm_compute; discriminate).
  assert (is_Some (_lru_cache_map cache2_2 !! 1)) as H2
    by (exists 1%positive; reflexivity).
  assert (3 ≠ 1) as H3 by discriminate.
  split_and!; [exact Repr_cache2_2|exact H1|exact H2|exact H3|].
  exact (recently_read_survives 1 3 30 cache2_2 heap2_2 _
           Repr_cache2_2 H1 H2 H3).
Defined.

(** X6: in every state reached from a constructed cache by calls of [get]
    and [put] that return, [size()] is the number of keys in the index and
    lies between 0 and [capacity()], which is positive. *)
Theorem reachable_size (c : LRUCache) (h : heap) :
  reachable c h →
  size c = Z.of_nat (base.size (_lru_cache_map c)) ∧
  0 <= size c <= capacity c ∧ 0 < capacity c.
Proof.
  intros [l HR]%reachable_Inv.
  rewrite (Repr_size _ _ _ HR), (Repr_capacity _ _ _ HR),
    (rp_count _ _ _ HR).
  pose proof (rp_cap _ _ _ HR). pose proof (rp_le _ _ _ HR). lia.
Qed.

Lemma reachable_size_witness :
  reachable cache2_2 heap2_2 ∧
  size cache2_2 = Z.of_nat (base.size (_lru_cache_map cache2_2)) ∧
  0 <= size cache2_2 <= capacity cache2_2 ∧ 0 < capacity cache2_2.
Proof.
  split; [exact reachable_cache2_2|].
  exact (reachable_size cache2_2 heap2_2 reachable_cache2_2).
Defined.

(** ** What [operator<<] writes *)

Lemma string_app_assoc (s1 s2 s3 : string) :
  (s1 +:+ s2) +:+ s3 = s1 +:+ (s2 +:+ s3).
Proof.
  induction s1 as [|ch s1 IH]; [done|].
  change (String ch ((s1 +:+ s2) +:+ s3) = String ch (s1 +:+ s2 +:+ s3)).
  by f_equal.
Qed.

Lemma contents_cons (h : heap) a l n :
  h !! a = Some n → contents h (a :: l) = (_key n, _value n) :: contents h l.
Proof. intros Hn. unfold contents, payload. simpl. by rewrite Hn. Qed.

Lemma elem_of_contents (h : heap) l k v :
  (k, v) ∈ contents h l ↔ ∃ a, a ∈ l ∧ payload h a = Some (k, v).
Proof. unfold contents. apply list_elem_of_omap. Qed.

Lemma length_contents (h : heap) p l q :
  seg h p l q → length (contents h l) = length l.
Proof.
  revert p. induction l as [|a l IH]; intros p; [done|].
  intros (n & Hn & _ & _ & Hs)%seg_cons.
  rewrite (contents_cons h a l n Hn). simpl. f_equal. by eapply IH.
Qed.

Lemma show_loop_None fuel (h : heap) os :
  show_loop fuel h None os = Done (None, os).
Proof. by destruct fuel. Qed.

Lemma show_loop_spec (h : heap) r : ∀ x p os fuel,
  seg h p (x :: r) None → (length r ≤ fuel)%nat →
  ∃ b nb os1, show_loop fuel h (Some x) os = Done (Some b, os1) ∧
    h !! b = Some nb ∧
    os1 +:+ entry_text nb
      = os +:+ String.concat ", " (pair_text <$> contents h (x :: r)).
Proof.
  induction r as [|y r IH]; intros x p os fuel Hseg Hfuel.
  - apply seg_cons in Hseg as (n & Hn & _ & Hnext & _). simpl in Hnext.
    exists x, n, os. split_and!; [|done|].
    + destruct fuel; simpl; by rewrite Hn, Hnext.
    + by rewrite (contents_cons h x [] n Hn).
  - apply seg_cons in Hseg as (n & Hn & _ & Hnext & Hseg). simpl in Hnext.
    destruct fuel as [|fuel]; [simpl in Hfuel; lia|].
    destruct (IH y (Some x) (os +:+ entry_text n +:+ ", ") fuel Hseg)
      as (b & nb & os1 & Hloop & Hnb & Htext).
    { simpl in Hfuel. lia. }
    exists b, nb, os1. split_and!; [|done|].
    + simpl. by rewrite Hn, Hnext.
    + rewrite Htext, (contents_cons h x (y :: r) n Hn).
      pose proof Hseg as (ny & Hny & _)%seg_cons.
      rewrite (contents_cons h y r ny Hny). rewrite !fmap_cons.
      cbn [String.concat]. fold (entry_text n).
      change (pair_text (_key n, _value n)) with (entry_text n).
      by rewrite !string_app_assoc.
Qed.

Lemma show_text (fuel : nat) c (h : heap) l (os : string) :
  Repr c h l → (length l ≤ fuel)%nat →
  show fuel c h os =
    Done (os +:+ "{" +:+
          String.concat ", " (pair_text <$> contents h l) +:+ "}").
Proof.
  intros HR Hfuel. pose proof (rp_list _ _ _ HR) as [Hnd Hseg Hf Hb Hsz].
  unfold show, show_list, list_front. rewrite Hf.
  destruct l as [|x r]; cbn [head].
  - rewrite show_loop_None. by rewrite string_app_assoc.
  - destruct (show_loop_spec h r x None (os +:+ "{") fuel Hseg)
      as (b & nb & os1 & -> & Hnb & Htext).
    { simpl in Hfuel. lia. }
    rewrite Hnb. f_equal.
    rewrite <- string_app_assoc, Htext. by rewrite !string_app_assoc.
Qed.

(** X7: on a well-formed cache, with fuel for at least [size()] steps,
    [operator<<] terminates without touching a bad pointer and appends to
    the stream an opening brace, the [key=value] pairs of the entries from
    the most to the least recently used, separated by a comma and a blank,
    and a closing brace; there are [size()] such pairs. *)
Theorem show_spec (fuel : nat) (c : LRUCache) (h : heap) (l : list positive)
    (os : string) :
  Repr c h l → (length l ≤ fuel)%nat →
  show fuel c h os =
    Done (os +:+ "{" +:+
          String.concat ", " (pair_text <$> contents h l) +:+ "}") ∧
  Z.of_nat (length (contents h l)) = size c.
Proof.
  intros HR Hfuel. split; [by apply show_text|].
  rewrite (length_contents h None l None) by apply HR.
  by rewrite (Repr_size _ _ _ HR).
Qed.

Lemma show_spec_witness :
  Repr cache2_2 heap2_2 [2%positive; 1%positive] ∧
  (length [2%positive; 1%positive] ≤ 2)%nat ∧
  show 2 cache2_2 heap2_2 "" = Done "{2=2, 1=1}" ∧
  Z.of_nat (length (contents heap2_2 [2%positive; 1%positive]))
    = size cache2_2.
Proof.
  assert (length [2%positive; 1%positive] ≤ 2)%nat as H by (simpl; lia).
  split_and!; [exact Repr_cache2_2|exact H|..];
    apply (show_spec 2 cache2_2 heap2_2 _ "" Repr_cache2_2 H).
Defined.

Lemma contents_keys (c : LRUCache) (h : heap) (l : list positive) :
  Repr c h l →
  NoDup (contents h l).*1 ∧
  ∀ k v, (k, v) ∈ contents h l ↔ peek k c h = Some v.
Proof.
  intros HR. pose proof HR as [Hl Hcap Hle Hidx Hcnt]. split.
  - assert (∀ a b k, a ∈ l → b ∈ l → key_at h a = Some k →
              key_at h b = Some k → a = b) as Hinj.
    { intros a b k Ha Hb Hka Hkb.
      assert (_lru_cache_map c !! k = Some a) as H1 by (by apply Hidx).
      assert (_lru_cache_map c !! k = Some b) as H2 by (by apply Hidx).
      congruence. }
    pose proof (il_nodup _ _ _ Hl) as Hnd. clear -Hinj Hnd.
    induction l as [|a l IH]; [apply NoDup_nil_2|].
    apply NoDup_cons in Hnd as [Ha Hnd].
    assert (NoDup (contents h l).*1) as IH'.
    { apply IH; [|done]. intros x y k Hx Hy. apply Hinj; by right. }
    unfold contents. simpl. fold (contents h l).
    destruct (payload h a) as [[k v]|] eqn:Hpa; [|done].
    rewrite fmap_cons. apply NoDup_cons. split; [|done]. simpl.
    intros ([k' v'] & Heq & Hin)%list_elem_of_fmap. simpl in Heq. subst k'.
    apply elem_of_contents in Hin as (b & Hb & Hpb).
    apply Ha. rewrite (Hinj a b k); [done|left|by right| |].
    + by eapply payload_key_Some.
    + by eapply payload_key_Some.
  - intros k v. rewrite elem_of_contents. unfold peek. split.
    + intros (a & Ha & Hpa).
      assert (_lru_cache_map c !! k = Some a) as ->.
      { apply Hidx. split; [done|]. by eapply payload_key_Some. }
      simpl. by eapply payload_value_Some.
    + destruct (_lru_cache_map c !! k) as [a|] eqn:Hk; [|done]. simpl.
      intros Hv. exists a. apply Hidx in Hk as [Ha Hka]. split; [done|].
      unfold payload, key_at, value_at in *.
      destruct (h !! a); simplify_eq/=. done.
Qed.


(** X8: on a well-formed cache, with fuel for at least [size()] steps,
    what [operator<<] writes between the braces is the text of a list of
    pairs that bear pairwise distinct keys and are exactly what [get]
    finds: [(k, v)] is written if and only if [k] is in the index and
    [get(k)] returns [v]. *)
Theorem show_pairs_distinct (fuel : nat) (c : LRUCache) (h : heap)
    (l : list positive) (os : string) :
  Repr c h l → (length l ≤ fuel)%nat →
  ∃ kvs : list (Z * Z),
    show fuel c h os =
      Done (os +:+ "{" +:+ String.concat ", " (pair_text <$> kvs) +:+ "}") ∧
    NoDup kvs.*1 ∧
    ∀ k v, (k, v) ∈ kvs ↔
      is_Some (_lru_cache_map c !! k) ∧ ∃ s, get k c h = Returns v s.
Proof.
  intros HR Hfuel. exists (contents h l).
  destruct (contents_keys c h l HR) as [Hnd Hpeek].
  split_and!; [by apply show_text|done|].
  intros k v. rewrite Hpeek. unfold peek. split.
  - destruct (_lru_cache_map c !! k) as [a|] eqn:Hk; [|done]. simpl.
    intros Hv. split; [done|].
    destruct (get_hit k c h l a HR Hk) as (n & L' & h' & Hn & _ & Hg & _).
    unfold value_at in Hv. rewrite Hn in Hv. injection Hv as <-. eauto.
  - intros [[a Hk] [s Hg]]. rewrite Hk. simpl.
    destruct (get_hit k c h l a HR Hk) as (n & L' & h' & Hn & _ & Hg' & _).
    rewrite Hg' in Hg. injection Hg as <- _.
    unfold value_at. by rewrite Hn.
Qed.

Lemma show_pairs_distinct_witness :
  Repr cache2_2 heap2_2 [2%positive; 1%positive] ∧
  (length [2%positive; 1%positive] ≤ 2)%nat ∧
  ∃ kvs : list (Z * Z),
    show 2 cache2_2 heap2_2 "" =
      Done ("" +:+ "{" +:+ String.concat ", " (pair_text <$> kvs) +:+ "}") ∧
    NoDup kvs.*1 ∧
    ∀ k v, (k, v) ∈ kvs ↔
      is_Some (_lru_cache_map cache2_2 !! k) ∧
      ∃ s, get k cache2_2 heap2_2 = Returns v s.
Proof.
  assert (length [2%positive; 1%positive] ≤ 2)%nat as H by (simpl; lia).
  split_and!; [exact Repr_cache2_2|exact H|].
  exact (show_pairs_distinct 2 cache2_2 heap2_2 _ "" Repr_cache2_2 H).
Defined.

(** ** [clear] and the destructor *)

Lemma put_returns_all_ok o k v c (h : heap) s :
  put o k v c h = Returns tt s → put all_ok k v c h = Returns tt s.
Proof.
  destruct o as [[] []]; [done|..]; unfold put, map_assign, add_to_front;
    simpl; intros Hput; repeat case_match; simplify_eq/=; done.
Qed.

(** X9: on a well-formed cache [clear()] returns; it frees every entry of
    the list and no other node, and empties the index; the list object is
    left as it was, so [capacity()] and also [size()] are unchanged; every
    [get] after it returns the sentinel. *)
Theorem clear_releases (c : LRUCache) (h : heap) (l : list positive) :
  Repr c h l →
  ∃ c' h', clear c h = Returns tt (c', h') ∧
    _lru_cache_map c' = ∅ ∧
    (∀ a, a ∈ l → h' !! a = None) ∧ (∀ a, a ∉ l → h' !! a = h !! a) ∧
    _lru_list c' = _lru_list c ∧ capacity c' = capacity c ∧
    size c' = size c ∧
    ∀ k, get k c' h' = Returns KEY_NOT_FOUND_RET_VAL (c', h').
Proof.
  intros HR. destruct (clear_spec c h l HR) as (h' & Hc & Hin & Hout).
  exists (with_map c ∅), h'. by split_and!.
Qed.

Lemma clear_releases_witness :
  Repr cache2_2 heap2_2 [2%positive; 1%positive] ∧
  ∃ c' h', clear cache2_2 heap2_2 = Returns tt (c', h') ∧
    _lru_cache_map c' = ∅ ∧
    (∀ a, a ∈ [2%positive; 1%positive] → h' !! a = None) ∧
    (∀ a, a ∉ [2%positive; 1%positive] → h' !! a = heap2_2 !! a) ∧
    _lru_list c' = _lru_list cache2_2 ∧ capacity c' = capacity cache2_2 ∧
    size c' = size cache2_2 ∧
    ∀ k, get k c' h' = Returns KEY_NOT_FOUND_RET_VAL (c', h').
Proof.
  split; [exact Repr_cache2_2|].
  exact (clear_releases cache2_2 heap2_2 _ Repr_cache2_2).
Defined.

(** X10: after [clear()] on a well-formed cache, a second [clear()] and
    the destructor return and change nothing: no node is freed twice. *)
Theorem clear_then_destroy (c : LRUCache) (h : heap) (l : list positive) :
  Repr c h l →
  ∃ c' h', clear c h = Returns tt (c', h') ∧
    clear c' h' = Returns tt (c', h') ∧ destroy c' h' = Returns tt (c', h').
Proof.
  intros HR. destruct (clear_spec c h l HR) as (h' & Hc & _).
  exists (with_map c ∅), h'. split; [done|].
  assert (clear (with_map c ∅) h' = Returns tt (with_map c ∅, h')) as Hc2.
  { unfold clear. simpl. by rewrite map_to_list_empty. }
  by split.
Qed.

Lemma clear_then_destroy_witness :
  Repr cache2_2 heap2_2 [2%positive; 1%positive] ∧
  ∃ c' h', clear cache2_2 heap2_2 = Returns tt (c', h') ∧
    clear c' h' = Returns tt (c', h') ∧ destroy c' h' = Returns tt (c', h').
Proof.
  split; [exact Repr_cache2_2|].
  exact (clear_then_destroy cache2_2 heap2_2 _ Repr_cache2_2).
Defined.

(** X11: after [clear()] on a well-formed cache that is full, every [put],
    whatever its key, value and allocations, reads the key of the back
    node, which [clear()] has freed: its behaviour is undefined. *)
Theorem put_after_clear (c : LRUCache) (h : heap) (l : list positive) :
  Repr c h l → size c = capacity c →
  ∃ c' h', clear c h = Returns tt (c', h') ∧
    ∀ o k v, put o k v c' h' = Undefined.
Proof.
  intros HR Hfull. destruct (clear_spec c h l HR) as (h' & Hc & Hin & _).
  exists (with_map c ∅), h'. split; [done|]. intros o k v.
  pose proof HR as [Hl Hcap Hle Hidx Hcnt].
  assert (l ≠ []) as Hne.
  { intros ->. rewrite (Repr_size c h []), (Repr_capacity c h []) in Hfull
      by done. simpl in Hfull. lia. }
  destruct (is_list_nonempty_back _ h l Hl Hne) as (b & Hback & _ & Hb).
  unfold put. simpl. rewrite lookup_empty.
  rewrite decide_True by done. unfold list_back. rewrite Hback. simpl.
  by rewrite (Hin b Hb).
Qed.

Lemma put_after_clear_witness :
  Repr cache2_2 heap2_2 [2%positive; 1%positive] ∧
  size cache2_2 = capacity cache2_2 ∧
  ∃ c' h', clear cache2_2 heap2_2 = Returns tt (c', h') ∧
    ∀ o k v, put o k v c' h' = Undefined.
Proof.
  assert (size cache2_2 = capacity cache2_2) as H by reflexivity.
  split_and!; [exact Repr_cache2_2|exact H|].
  exact (put_after_clear cache2_2 heap2_2 _ Repr_cache2_2 H).
Defined.

(** X20: after [clear()] on a well-formed cache that holds entries but is
    not full, a [put] whose node allocation succeeds writes through
    [_front], which points at a node [clear()] has freed: its behaviour is
    undefined.  When the node allocation fails, the exception is thrown
    before the stale pointer is used. *)
Theorem put_after_clear_below_capacity (c : LRUCache) (h : heap)
    (l : list positive) :
  Repr c h l → l ≠ [] → size c ≠ capacity c →
  ∃ c' h', clear c h = Returns tt (c', h') ∧
    ∀ o k v, put o k v c' h' =
      if node_ok o then Undefined else Throws std_exception (c', h').
Proof.
  intros HR Hne Hroom. destruct (clear_spec c h l HR) as (h' & Hc & Hin & _).
  exists (with_map c ∅), h'. split; [done|]. intros o k v.
  pose proof (rp_list _ _ _ HR) as Hl.
  destruct l as [|f r]; [done|].
  pose proof (il_front _ _ _ Hl) as Hf. simpl in Hf.
  unfold put. simpl. rewrite lookup_empty.
  rewrite decide_False by done.
  destruct (node_ok o); [|reflexivity].
  unfold add_to_front, new_node. rewrite Hf.
  set (nn := fresh_addr (_lru_list c) h').
  assert (f ≠ nn) as Hfn.
  { intros ->. apply (fresh_addr_held (_lru_list c) h').
    unfold held_pointers. rewrite Hf. simpl. set_solver. }
  rewrite (store_Some _ nn (new_TwoWayListNode k v))
    by apply lookup_insert_eq.
  simpl. unfold store. simpl.
  rewrite !lookup_insert_ne by done. by rewrite (Hin f) by left.
Qed.

Lemma put_after_clear_below_capacity_witness :
  Repr cache2_1 heap2_1 [1%positive] ∧ [1%positive] ≠ [] ∧
  size cache2_1 ≠ capacity cache2_1 ∧
  ∃ c' h', clear cache2_1 heap2_1 = Returns tt (c', h') ∧
    ∀ o k v, put o k v c' h' =
      if node_ok o then Undefined else Throws std_exception (c', h').
Proof.
  assert ([1%positive] ≠ []) as H1 by discriminate.
  assert (size cache2_1 ≠ capacity cache2_1) as H2 by discriminate.
  split_and!; [exact Repr_cache2_1|exact H1|exact H2|].
  exact (put_after_clear_below_capacity cache2_1 heap2_1 _
           Repr_cache2_1 H1 H2).
Defined.

Lemma reachable_owned c (h : heap) :
  reachable c h → ∃ l, Repr c h l ∧ ∀ x, is_Some (h !! x) → x ∈ l.
Proof.
  induction 1 as [n c Hn Hc|k c h v c' h' _ IH Hget|o k v c h c' h' _ IH Hput].
  - exists []. split; [by eapply construct_Repr|].
    intros x [? Hx]. by rewrite lookup_empty in Hx.
  - destruct IH as (l & HR & Hown).
    destruct (_lru_cache_map c !! k) as [a|] eqn:Hk.
    + destruct (get_hit k c h l a HR Hk)
        as (n & L' & h1 & _ & _ & Hg & HR' & Hpay).
      rewrite Hg in Hget. injection Hget as _ <- <-.
      exists (promote a l). split; [done|]. intros x Hx.
      apply elem_of_promote; [by apply (rp_index _ _ _ HR k a)|].
      apply Hown. specialize (Hpay x). unfold payload in Hpay.
      destruct (h !! x); [done|]. destruct Hx as [? Hx].
      by rewrite Hx in Hpay.
    + unfold get in Hget. rewrite Hk in Hget. injection Hget as _ <- <-.
      by exists l.
  - destruct IH as (l & HR & Hown).
    apply put_returns_all_ok in Hput.
    destruct (put_all_ok_effect k v c h l HR)
      as (c2 & h2 & a & Hp & HR' & Hhead & _ & _ & _ & _ & Halloc & Hmem).
    rewrite Hp in Hput. injection Hput as <- <-.
    exists (order_after_put k c h l). split; [done|]. intros x Hx.
    destruct (Halloc x Hx) as [Hx'| ->]; [by apply Hmem, Hown|].
    by apply head_Some_elem_of.
Qed.

Lemma destroy_reachable c (h : heap) :
  reachable c h → ∃ c', destroy c h = Returns tt (c', ∅).
Proof.
  intros (l & HR & Hown)%reachable_owned.
  destruct (clear_spec c h l HR) as (h' & Hc & Hin & Hout).
  exists (with_map c ∅). unfold destroy. rewrite Hc. do 2 f_equal.
  apply map_eq. intros x. rewrite lookup_empty.
  destruct (decide (x ∈ l)) as [Hx|Hx]; [by apply Hin|].
  rewrite Hout by done. destruct (h !! x) eqn:Hhx; [|done].
  exfalso. apply Hx, Hown. by rewrite Hhx.
Qed.

(** X12: the destructor of a cache that was constructed and then used only
    through calls of [get] and [put] that returned frees every node the
    cache ever allocated and still holds: the heap of nodes is empty
    afterwards. *)
Theorem destroy_frees_all (c : LRUCache) (h : heap) :
  reachable c h → ∃ c', destroy c h = Returns tt (c', ∅).
Proof. apply destroy_reachable. Qed.

Lemma destroy_frees_all_witness :
  reachable cache2_2 heap2_2 ∧
  ∃ c', destroy cache2_2 heap2_2 = Returns tt (c', ∅).
Proof.
  split; [exact reachable_cache2_2|].
  exact (destroy_frees_all cache2_2 heap2_2 reachable_cache2_2).
Defined.

(** ** The test helpers *)

Lemma peek_is_Some k c (h : heap) l :
  Repr c h l → is_Some (peek k c h) ↔ is_Some (_lru_cache_map c !! k).
Proof.
  intros HR. unfold peek.
  destruct (_lru_cache_map c !! k) as [a|] eqn:Hk; simpl.
  - apply (rp_index _ _ _ HR) in Hk as [Ha _].
    destruct (is_list_allocated _ h l a (rp_list _ _ _ HR) Ha) as [n Hn].
    unfold value_at. rewrite Hn. simpl. split; eauto.
  - split; intros [? ?]; done.
Qed.

Lemma length_order_after_put k c (h : heap) l :
  Repr c h l →
  length (order_after_put k c h l) =
    if decide (is_Some (_lru_cache_map c !! k) ∨ size c = capacity c)
    then length l else S (length l).
Proof.
  intros HR. pose proof (il_nodup _ _ _ (rp_list _ _ _ HR)) as Hnd.
  unfold order_after_put.
  destruct (_lru_cache_map c !! k) as [a|] eqn:Hk.
  - rewrite decide_True by eauto.
    apply length_promote; [done|]. by apply (rp_index _ _ _ HR k a).
  - destruct (decide (size c = capacity c)) as [Hfull|Hroom].
    + rewrite decide_True by eauto.
      destruct (last l) as [b|] eqn:Hlast; [|done].
      apply length_promote; [done|]. by apply last_Some_elem_of.
    + rewrite decide_False; [done|]. intros [[? ?]|?]; done.
Qed.

(** One [put] of a test helper: it returns; a full cache stays full; in a
    cache that is not full no key is lost. *)
Lemma put_all_ok_step k v c (h : heap) l :
  Repr c h l →
  ∃ c' h' l', put all_ok k v c h = Returns tt (c', h') ∧ Repr c' h' l' ∧
    _capacity c' = _capacity c ∧
    (size c = capacity c → size c' = capacity c') ∧
    is_Some (_lru_cache_map c' !! k) ∧
    (size c ≠ capacity c →
     ∀ j, is_Some (_lru_cache_map c !! j) → is_Some (_lru_cache_map c' !! j)).
Proof.
  intros HR.
  destruct (put_all_ok_effect k v c h l HR)
    as (c' & h' & a & Hp & HR' & _ & Hm & _ & Hcap & Hother & _).
  exists c', h', (order_after_put k c h l).
  split; [done|]. split; [done|]. split; [done|]. split; [|split].
  - intros Hfull.
    rewrite (Repr_size _ _ _ HR'), (Repr_capacity _ _ _ HR'), Hcap.
    rewrite (length_order_after_put k c h l HR), decide_True by eauto.
    by rewrite <- (Repr_size _ _ _ HR), <- (Repr_capacity _ _ _ HR).
  - by rewrite Hm.
  - intros Hroom j Hj. destruct (decide (j = k)) as [->|Hne].
    { by rewrite Hm. }
    apply (peek_is_Some j c' h' _ HR'). rewrite (Hother j Hne).
    rewrite decide_False; [by apply (peek_is_Some j c h l HR)|].
    unfold evicted. destruct (_lru_cache_map c !! k); [done|].
    by rewrite decide_False.
Qed.

Lemma get_step k c (h : heap) l :
  Repr c h l →
  ∃ v c' h' l', get k c h = Returns v (c', h') ∧ Repr c' h' l' ∧
    _capacity c' = _capacity c ∧ size c' = size c.
Proof.
  intros HR. destruct (_lru_cache_map c !! k) as [a|] eqn:Hk.
  - destruct (get_hit k c h l a HR Hk) as (n & L' & h' & _ & _ & Hg & HR' & _).
    eexists _, _, _, _. split_and!; [done..|].
    rewrite (Repr_size _ _ _ HR'), (Repr_size _ _ _ HR).
    rewrite length_promote; [done|apply HR|].
    by apply (rp_index _ _ _ HR k a).
  - exists KEY_NOT_FOUND_RET_VAL, c, h, l. split_and!; [|done..].
    unfold get. by rewrite Hk.
Qed.

Lemma populate_loop_exit fuel i c (h : heap) :
  ¬ to_size_t i <= capacity c → populate_loop fuel i c h = Finished (c, h).
Proof. intros Hi. destruct fuel; simpl; by rewrite decide_False. Qed.

Lemma populate_loop_spec (n : nat) : ∀ fuel i c (h : heap) l,
  Repr c h l → _capacity c < INT_MAX → 1 <= i →
  Z.of_nat n = _capacity c + 1 - i → (n ≤ fuel)%nat →
  (size c = capacity c ∨
   ∀ j, 1 <= j < i → is_Some (_lru_cache_map c !! j)) →
  ∃ c' h' l', populate_loop fuel i c h = Finished (c', h') ∧
    Repr c' h' l' ∧ _capacity c' = _capacity c ∧
    (size c' = capacity c' ∨
     ∀ j, 1 <= j <= _capacity c → is_Some (_lru_cache_map c' !! j)) ∧
    (reachable c h → reachable c' h').
Proof.
  induction n as [|n IH]; intros fuel i c h l HR Hmax Hi Hn Hfuel Hinv.
  - exists c, h, l. split_and!; [|done..| |done].
    + apply populate_loop_exit.
      rewrite (Repr_capacity _ _ _ HR), to_size_t_small; [lia|].
      pose proof (rp_cap _ _ _ HR). unfold INT_MAX in *. lia.
    + destruct Hinv as [?|Hinv]; [by left|right].
      intros j Hj. apply Hinv. lia.
  - destruct fuel as [|fuel]; [lia|]. simpl.
    rewrite decide_True.
    2:{ rewrite (Repr_capacity _ _ _ HR), to_size_t_small; [lia|].
        pose proof (rp_cap _ _ _ HR). unfold INT_MAX in *. lia. }
    destruct (put_all_ok_step i i c h l HR)
      as (c1 & h1 & l1 & Hp1 & HR1 & Hcap1 & Hfull1 & Hi1 & Hkeep1).
    rewrite Hp1. rewrite decide_False by lia.
    destruct (IH fuel (i + 1) c1 h1 l1)
      as (c' & h' & l' & Hloop & HR' & Hcap' & Hinv' & Hreach');
      [done|lia|lia|lia|lia| |].
    + destruct (decide (size c = capacity c)) as [Hfull|Hroom]; [by left; auto|].
      right. intros j Hj. destruct (decide (j = i)) as [->|Hne]; [done|].
      apply Hkeep1; [done|]. destruct Hinv as [?|Hinv]; [done|].
      apply Hinv. lia.
    + exists c', h', l'. split_and!; [done|done|lia| |].
      * by rewrite Hcap1 in Hinv'.
      * intros Hr. apply Hreach'. by eapply reach_put.
Qed.

Lemma keys_1_to_n (m : gmap Z positive) (n : Z) :
  0 <= n → (∀ j, 1 <= j <= n → is_Some (m !! j)) →
  n <= Z.of_nat (base.size m).
Proof.
  intros Hn Hall.
  assert ((list_to_set (seqZ 1 n) : gset Z) ⊆ dom m) as Hsub.
  { intros j [Hj1 Hj2]%elem_of_list_to_set%elem_of_seqZ.
    apply elem_of_dom, Hall. lia. }
  apply subseteq_size in Hsub.
  rewrite size_dom, size_list_to_set, length_seqZ in Hsub
    by apply NoDup_seqZ.
  lia.
Qed.

Lemma populate_to_capacity_run (fuel : nat) c (h : heap) l :
  Repr c h l → _capacity c < INT_MAX → (Z.to_nat (_capacity c) ≤ fuel)%nat →
  ∃ c' h' l', populate_to_capacity fuel c h = Finished (c', h') ∧
    Repr c' h' l' ∧ _capacity c' = _capacity c ∧ size c' = capacity c' ∧
    (reachable c h → reachable c' h').
Proof.
  intros HR Hmax Hfuel. pose proof (rp_cap _ _ _ HR) as Hcap.
  destruct (populate_loop_spec (Z.to_nat (_capacity c)) fuel 1 c h l)
    as (c' & h' & l' & Hloop & HR' & Hcap' & Hinv & Hreach);
    [done|done|lia|lia|done| |].
  { right. intros j Hj. lia. }
  assert (size c' = capacity c') as Hfull.
  { destruct Hinv as [?|Hall]; [done|].
    apply keys_1_to_n in Hall; [|lia].
    rewrite (Repr_size _ _ _ HR'), (Repr_capacity _ _ _ HR').
    pose proof (rp_le _ _ _ HR'). rewrite (rp_count _ _ _ HR') in Hall. lia. }
  exists c', h', l'. unfold populate_to_capacity. rewrite Hloop.
  rewrite decide_True by done. by split_and!.
Qed.

(** X13: on a well-formed cache whose capacity is below [INT_MAX], with
    every allocation succeeding and fuel for [capacity()] iterations,
    [populate_to_capacity] finishes: no [put] throws or is undefined, the
    counter does not overflow, and the assertion [size() == capacity()]
    holds; the cache it leaves is well formed and has the same capacity. *)
Theorem populate_to_capacity_fills (fuel : nat) (c : LRUCache) (h : heap)
    (l : list positive) :
  Repr c h l → _capacity c < INT_MAX → (Z.to_nat (_capacity c) ≤ fuel)%nat →
  ∃ c' h', populate_to_capacity fuel c h = Finished (c', h') ∧
    Inv c' h' ∧ size c' = capacity c' ∧ capacity c' = capacity c.
Proof.
  intros HR Hmax Hfuel.
  destruct (populate_to_capacity_run fuel c h l HR Hmax Hfuel)
    as (c' & h' & l' & Hrun & HR' & Hcap' & Hfull & _).
  exists c', h'. split_and!; [done|by exists l'|done|].
  by rewrite (Repr_capacity _ _ _ HR'), (Repr_capacity _ _ _ HR).
Qed.

Lemma populate_to_capacity_fills_witness :
  Repr cache2_1 heap2_1 [1%positive] ∧ _capacity cache2_1 < INT_MAX ∧
  (Z.to_nat (_capacity cache2_1) ≤ 2)%nat ∧
  ∃ c' h', populate_to_capacity 2 cache2_1 heap2_1 = Finished (c', h') ∧
    Inv c' h' ∧ size c' = capacity c' ∧ capacity c' = capacity cache2_1.
Proof.
  assert (_capacity cache2_1 < INT_MAX) as H1 by reflexivity.
  assert (Z.to_nat (_capacity cache2_1) ≤ 2)%nat as H2 by (simpl; lia).
  split_and!; [exact Repr_cache2_1|exact H1|exact H2|].
  exact (populate_to_capacity_fills 2 cache2_1 heap2_1 _ Repr_cache2_1 H1 H2).
Defined.

Lemma load_loop_exit fuel load i c (h : heap) :
  ¬ i < load → load_loop fuel load i c h = Finished (c, h).
Proof. intros Hi. destruct fuel; simpl; by rewrite decide_False. Qed.

Lemma load_loop_spec (load : Z) (n : nat) : ∀ fuel i c (h : heap) l,
  Repr c h l → size c = capacity c → load ÷ 50 ≠ 0 →
  Z.of_nat n = load - i → (n ≤ fuel)%nat →
  ∃ c' h' l', load_loop fuel load i c h = Finished (c', h') ∧
    Repr c' h' l' ∧ _capacity c' = _capacity c ∧ size c' = capacity c' ∧
    (reachable c h → reachable c' h').
Proof.
  induction n as [|n IH]; intros fuel i c h l HR Hfull Hdiv Hn Hfuel.
  - exists c, h, l. split_and!; [|done..]. apply load_loop_exit. lia.
  - destruct fuel as [|fuel]; [lia|]. simpl.
    rewrite decide_True by lia.
    destruct (put_all_ok_step i i c h l HR)
      as (c1 & h1 & l1 & Hp1 & HR1 & Hcap1 & Hfull1 & _).
    rewrite Hp1. rewrite decide_False by done.
    destruct (get_step (i `rem` (load ÷ 50)) c1 h1 l1 HR1)
      as (v & c2 & h2 & l2 & Hg2 & HR2 & Hcap2 & Hsz2).
    rewrite Hg2.
    destruct (IH fuel (i + 1) c2 h2 l2)
      as (c' & h' & l' & Hloop & HR' & Hcap' & Hfull' & Hreach');
      [done| |done|lia|lia|].
    + rewrite Hsz2, (Hfull1 Hfull).
      by rewrite (Repr_capacity _ _ _ HR1), (Repr_capacity _ _ _ HR2).
    + exists c', h', l'. split_and!; [done|done|congruence|done|].
      intros Hr. apply Hreach'. eapply reach_get; [|done].
      by eapply reach_put.
Qed.

Lemma time_test_load_run (fuel : nat) (load : Z) c (h : heap) l :
  Repr c h l → size c = capacity c → 50 <= load →
  (Z.to_nat load ≤ fuel)%nat →
  ∃ c' h' l', time_test_load fuel load c h = Finished (c', h') ∧
    Repr c' h' l' ∧ _capacity c' = _capacity c ∧ size c' = capacity c' ∧
    (reachable c h → reachable c' h').
Proof.
  intros HR Hfull Hload Hfuel.
  assert (load ÷ 50 ≠ 0) as Hdiv.
  { rewrite Z.quot_div_nonneg by lia.
    pose proof (Z.div_str_pos load 50). lia. }
  destruct (load_loop_spec load (Z.to_nat load) fuel 0 c h l)
    as (c' & h' & l' & Hloop & HR' & Hcap' & Hfull' & Hreach);
    [done..|lia|done|].
  exists c', h', l'. unfold time_test_load. rewrite Hloop.
  rewrite decide_True by done. by split_and!.
Qed.

(** X14: on a well-formed cache that is full, for a [load] of at least 50,
    with every allocation succeeding and fuel for [load] iterations,
    [time_test_load] finishes: none of its [put]s and [get]s throws or is
    undefined, and the assertion [size() == capacity()] holds. *)
Theorem time_test_load_full (fuel : nat) (load : Z) (c : LRUCache) (h : heap)
    (l : list positive) :
  Repr c h l → size c = capacity c → 50 <= load →
  (Z.to_nat load ≤ fuel)%nat →
  ∃ c' h', time_test_load fuel load c h = Finished (c', h') ∧
    Inv c' h' ∧ size c' = capacity c' ∧ capacity c' = capacity c.
Proof.
  intros HR Hfull Hload Hfuel.
  destruct (time_test_load_run fuel load c h l HR Hfull Hload Hfuel)
    as (c' & h' & l' & Hrun & HR' & Hcap' & Hfull' & _).
  exists c', h'. split_and!; [done|by exists l'|done|].
  by rewrite (Repr_capacity _ _ _ HR'), (Repr_capacity _ _ _ HR).
Qed.

Lemma time_test_load_full_witness :
  Repr cache2_2 heap2_2 [2%positive; 1%positive] ∧
  size cache2_2 = capacity cache2_2 ∧ 50 <= 50 ∧
  (Z.to_nat 50 ≤ 50)%nat ∧
  ∃ c' h', time_test_load 50 50 cache2_2 heap2_2 = Finished (c', h') ∧
    Inv c' h' ∧ size c' = capacity c' ∧ capacity c' = capacity cache2_2.
Proof.
  assert (size cache2_2 = capacity cache2_2) as H1 by reflexivity.
  assert (50 <= 50) as H2 by lia.
  assert (Z.to_nat 50 ≤ 50)%nat as H3 by (simpl; lia).
  split_and!; [exact Repr_cache2_2|exact H1|exact H2|exact H3|].
  exact (time_test_load_full 50 50 cache2_2 heap2_2 _ Repr_cache2_2 H1 H2 H3).
Defined.

(** X15: on a well-formed cache, [time_test_load(load)] with
    [0 < load < 50] divides by zero in its first iteration: after
    [put(0, 0)] has returned, [i % (load / 50)] has a zero divisor. *)
Theorem time_test_load_small (fuel : nat) (load : Z) (c : LRUCache)
    (h : heap) (l : list positive) :
  Repr c h l → 0 < load < 50 →
  time_test_load (S fuel) load c h = Crashed.
Proof.
  intros HR Hload. unfold time_test_load. simpl.
  rewrite decide_True by lia.
  destruct (put_all_ok_step 0 0 c h l HR) as (c1 & h1 & l1 & -> & _).
  rewrite decide_True; [done|]. apply Z.quot_small. lia.
Qed.

Lemma time_test_load_small_witness :
  Repr cache2_2 heap2_2 [2%positive; 1%positive] ∧ 0 < 49 < 50 ∧
  time_test_load 1 49 cache2_2 heap2_2 = Crashed.
Proof.
  assert (0 < 49 < 50) as H by lia.
  split; [exact Repr_cache2_2|]. split; [exact H|].
  exact (time_test_load_small 0 49 cache2_2 heap2_2 _ Repr_cache2_2 H).
Defined.

(** ** The list on its own *)

(** X19: on a well-formed list the three ways of asking whether it is
    empty agree: [empty()] (a null [_back]) holds exactly when [size()] is
    0, and exactly when [front()] is null. *)
Theorem empty_iff (L : LRUTwoWayList) (h : heap) (l : list positive) :
  is_list L h l →
  (empty L = true ↔ list_size L = 0) ∧
  (empty L = true ↔ list_front L = None).
Proof.
  intros [_ _ Hf Hb Hsz]. unfold empty, list_size, list_front.
  rewrite Hf, Hb, Hsz, bool_decide_eq_true.
  destruct l as [|x r]; [done|].
  assert (None ≠ last (x :: r)) as Hne.
  { intros Hl. symmetry in Hl. by apply last_None in Hl. }
  split; split; intros H; done.
Qed.

Lemma empty_iff_witness :
  is_list (_lru_list cache2_2) heap2_2 [2%positive; 1%positive] ∧
  (empty (_lru_list cache2_2) = true ↔ list_size (_lru_list cache2_2) = 0) ∧
  (empty (_lru_list cache2_2) = true
   ↔ list_front (_lru_list cache2_2) = None).
Proof.
  split; [exact (rp_list _ _ _ Repr_cache2_2)|].
  exact (empty_iff _ heap2_2 _ (rp_list _ _ _ Repr_cache2_2)).
Defined.

(** X16: on a well-formed list, [move_to_front] of one of its nodes is
    defined; the node becomes the front, the other nodes keep their
    relative order, and the count, the set of allocated nodes and every
    key and value are unchanged. *)
Theorem move_to_front_correct (L : LRUTwoWayList) (h : heap)
    (l : list positive) (g : positive) :
  is_list L h l → g ∈ l →
  ∃ L' h', move_to_front g L h = Some (L', h') ∧
    is_list L' h' (promote g l) ∧ _front L' = Some g ∧
    _size L' = _size L ∧ dom h' = dom h ∧
    (∀ a, payload h' a = payload h a).
Proof.
  intros Hl Hg.
  destruct (move_to_front_is_list L h l g Hl Hg) as (L' & h' & Hm & Hl' & Hpay).
  exists L', h'. split_and!; try done.
  - by rewrite (il_front _ _ _ Hl').
  - rewrite (il_size _ _ _ Hl'), (il_size _ _ _ Hl).
    by rewrite (length_promote g l (il_nodup _ _ _ Hl) Hg).
  - by apply payload_dom.
Qed.

Lemma move_to_front_correct_witness :
  is_list (_lru_list cache2_2) heap2_2 [2%positive; 1%positive] ∧
  1%positive ∈ [2%positive; 1%positive] ∧
  ∃ L' h', move_to_front 1%positive (_lru_list cache2_2) heap2_2
             = Some (L', h') ∧
    is_list L' h' (promote 1%positive [2%positive; 1%positive]) ∧
    _front L' = Some 1%positive ∧
    _size L' = _size (_lru_list cache2_2) ∧ dom h' = dom heap2_2 ∧
    (∀ a, payload h' a = payload heap2_2 a).
Proof.
  assert (1%positive ∈ [2%positive; 1%positive]) as H
    by (apply list_elem_of_further, list_elem_of_here).
  split_and!; [exact (rp_list _ _ _ Repr_cache2_2)|exact H|].
  exact (move_to_front_correct _ heap2_2 _ 1%positive
           (rp_list _ _ _ Repr_cache2_2) H).
Defined.

(** X17: on a well-formed list of fewer than [2^64 - 1] nodes,
    [add_to_front(key, value)] whose allocation succeeds returns a node
    that was not allocated before; that node holds [key] and [value] and
    is the new front, before the old nodes in their old order; the count
    grows by one and no old node changes its key or value.  When the
    allocation fails, [bad_alloc] is thrown with list and heap untouched. *)
Theorem add_to_front_correct (key value : Z) (L : LRUTwoWayList) (h : heap)
    (l : list positive) :
  is_list L h l → Z.of_nat (length l) < 2 ^ 64 - 1 →
  (∃ nn L' h', add_to_front true key value L h = Returns nn (L', h') ∧
     h !! nn = None ∧ is_list L' h' (nn :: l) ∧ _front L' = Some nn ∧
     _size L' = _size L + 1 ∧ payload h' nn = Some (key, value) ∧
     (∀ a, a ≠ nn → payload h' a = payload h a)) ∧
  add_to_front false key value L h = Throws bad_alloc (L, h).
Proof.
  intros Hl Hlen. split; [|done].
  destruct (add_to_front_spec key value L h l Hl Hlen)
    as (L' & h' & Hadd & Hl' & Hpa & Hpo).
  exists (fresh_addr L h), L', h'. split_and!; try done.
  - apply fresh_addr_None.
  - by rewrite (il_front _ _ _ Hl').
  - rewrite (il_size _ _ _ Hl'), (il_size _ _ _ Hl). simpl length. lia.
Qed.

Lemma add_to_front_correct_witness :
  is_list (_lru_list cache2_1) heap2_1 [1%positive] ∧
  Z.of_nat (length [1%positive]) < 2 ^ 64 - 1 ∧
  (∃ nn L' h', add_to_front true 7 70 (_lru_list cache2_1) heap2_1
                 = Returns nn (L', h') ∧
     heap2_1 !! nn = None ∧ is_list L' h' (nn :: [1%positive]) ∧
     _front L' = Some nn ∧ _size L' = _size (_lru_list cache2_1) + 1 ∧
     payload h' nn = Some (7, 70) ∧
     (∀ a, a ≠ nn → payload h' a = payload heap2_1 a)) ∧
  add_to_front false 7 70 (_lru_list cache2_1) heap2_1
    = Throws bad_alloc (_lru_list cache2_1, heap2_1).
Proof.
  assert (Z.of_nat (length [1%positive]) < 2 ^ 64 - 1) as H by (simpl; lia).
  split_and!; [exact (rp_list _ _ _ Repr_cache2_1)|exact H|..];
    apply (add_to_front_correct 7 70 _ heap2_1 _
             (rp_list _ _ _ Repr_cache2_1) H).
Defined.

(** ** The test programs *)

Lemma and_then_step (P Q : LRUCache → heap → Prop) r f :
  (∃ c h, r = Finished (c, h) ∧ P c h) →
  (∀ c h, P c h → ∃ c' h', f c h = Finished (c', h') ∧ Q c' h') →
  ∃ c' h', and_then r f = Finished (c', h') ∧ Q c' h'.
Proof. intros (c & h & -> & HP) Hf. simpl. by apply Hf. Qed.

Lemma sound_weaken cap c (h : heap) : sound cap true c h → sound cap false c h.
Proof. intros (Hr & Hcap & _). by split_and!. Qed.

Lemma print_cache_sound fuel cap full c (h : heap) :
  (Z.to_nat cap ≤ fuel)%nat → sound cap full c h →
  ∃ c' h', print_cache fuel c h = Finished (c', h') ∧ sound cap full c' h'.
Proof.
  intros Hfuel Hs. pose proof Hs as (Hr & Hcap & _).
  destruct (reachable_Inv c h Hr) as [l HR].
  exists c, h. split; [|done]. unfold print_cache.
  rewrite (show_text fuel c h l "" HR); [done|].
  pose proof (rp_le _ _ _ HR). lia.
Qed.

Lemma timed_put_sound cap full k v c (h : heap) :
  sound cap full c h →
  ∃ c' h', timed_put k v c h = Finished (c', h') ∧ sound cap full c' h'.
Proof.
  intros (Hr & Hcap & Hfull). destruct (reachable_Inv c h Hr) as [l HR].
  destruct (put_all_ok_step k v c h l HR)
    as (c' & h' & l' & Hp & HR' & Hcap' & Hfull' & _).
  exists c', h'. unfold timed_put. rewrite Hp. split; [done|].
  split_and!; [by eapply reach_put|congruence|auto].
Qed.

Lemma timed_get_sound cap full k c (h : heap) :
  sound cap full c h →
  ∃ c' h', timed_get k c h = Finished (c', h') ∧ sound cap full c' h'.
Proof.
  intros (Hr & Hcap & Hfull). destruct (reachable_Inv c h Hr) as [l HR].
  destruct (get_step k c h l HR)
    as (v & c' & h' & l' & Hg & HR' & Hcap' & Hsz').
  exists c', h'. unfold timed_get. rewrite Hg. split; [done|].
  split_and!; [by eapply reach_get|congruence|].
  intros Hf. rewrite Hsz', (Hfull Hf).
  by rewrite (Repr_capacity _ _ _ HR), (Repr_capacity _ _ _ HR').
Qed.

Lemma logged_put_sound fuel cap full k v c (h : heap) :
  (Z.to_nat cap ≤ fuel)%nat → sound cap full c h →
  ∃ c' h', logged_put fuel k v c h = Finished (c', h') ∧ sound cap full c' h'.
Proof.
  intros Hfuel Hs. unfold logged_put.
  apply (and_then_step (sound cap full)).
  - by apply timed_put_sound.
  - intros c1 h1. by apply print_cache_sound.
Qed.

Lemma logged_get_sound fuel cap full k c (h : heap) :
  (Z.to_nat cap ≤ fuel)%nat → sound cap full c h →
  ∃ c' h', logged_get fuel k c h = Finished (c', h') ∧ sound cap full c' h'.
Proof.
  intros Hfuel Hs. unfold logged_get.
  apply (and_then_step (sound cap full)).
  - by apply timed_get_sound.
  - intros c1 h1. by apply print_cache_sound.
Qed.

Lemma populate_to_capacity_sound fuel cap c (h : heap) :
  cap < INT_MAX → (Z.to_nat cap ≤ fuel)%nat → sound cap false c h →
  ∃ c' h', populate_to_capacity fuel c h = Finished (c', h') ∧
           sound cap true c' h'.
Proof.
  intros Hmax Hfuel (Hr & Hcap & _). destruct (reachable_Inv c h Hr) as [l HR].
  destruct (populate_to_capacity_run fuel c h l HR)
    as (c' & h' & l' & Hrun & HR' & Hcap' & Hfull & Hreach); [lia|lia|].
  exists c', h'. split; [done|]. split_and!; [auto|congruence|done].
Qed.

Lemma time_test_load_sound fuel load cap c (h : heap) :
  50 <= load → (Z.to_nat load ≤ fuel)%nat → sound cap true c h →
  ∃ c' h', time_test_load fuel load c h = Finished (c', h') ∧
           sound cap true c' h'.
Proof.
  intros Hload Hfuel (Hr & Hcap & Hfull).
  destruct (reachable_Inv c h Hr) as [l HR].
  destruct (time_test_load_run fuel load c h l HR (Hfull eq_refl) Hload Hfuel)
    as (c' & h' & l' & Hrun & HR' & Hcap' & Hfull' & Hreach).
  exists c', h'. split; [done|]. split_and!; [auto|congruence|done].
Qed.

Lemma TEST_LOGGED_sound fuel cap c (h : heap) :
  (Z.to_nat cap ≤ fuel)%nat → sound cap false c h →
  ∃ c' h', TEST_LOGGED fuel c h = Finished (c', h') ∧ sound cap false c' h'.
Proof.
  intros Hfuel Hs. unfold TEST_LOGGED, log_initial_cache.
  apply (and_then_step (sound cap false)); [by apply print_cache_sound|].
  clear c h Hs. intros c h Hs.
  repeat (apply (and_then_step (sound cap false));
          [by (apply logged_put_sound || apply logged_get_sound)|];
          clear c h Hs; intros c h Hs).
  by apply logged_get_sound.
Qed.

Lemma TEST_TIMED_AND_LOADED_sound fuel load cap c (h : heap) :
  cap < INT_MAX → (Z.to_nat cap ≤ fuel)%nat →
  50 <= load → (Z.to_nat load ≤ fuel)%nat → sound cap false c h →
  ∃ c' h', TEST_TIMED_AND_LOADED fuel load c h = Finished (c', h') ∧
           sound cap true c' h'.
Proof.
  intros Hmax Hfuel Hload Hfuel' Hs. unfold TEST_TIMED_AND_LOADED.
  do 7 (apply (and_then_step (sound cap false));
        [by (apply timed_put_sound || apply timed_get_sound)|];
        clear c h Hs; intros c h Hs).
  apply (and_then_step (sound cap true));
    [by apply populate_to_capacity_sound|].
  clear c h Hs; intros c h Hs.
  do 4 (apply (and_then_step (sound cap true));
        [by (apply timed_put_sound || apply timed_get_sound)|];
        clear c h Hs; intros c h Hs).
  by apply time_test_load_sound.
Qed.

(** X18: for every [int] capacity below [INT_MAX] read from the input,
    with every allocation succeeding and fuel for 10000 and for
    [capacity] iterations, [run_and_test_lru_cache_impl] terminates.  For
    a capacity of 0 or less the constructor throws and the code is -1.
    Otherwise [TEST_LOGGED] and [TEST_TIMED_AND_LOADED] run to their end
    without an undefined operation, an exception or a failed assertion,
    the cache is destroyed, the code is 0, and no node is left
    allocated. *)
Theorem run_and_test_passes (fuel : nat) (capacity : Z) :
  is_int capacity → capacity < INT_MAX →
  (Z.to_nat 10000 ≤ fuel)%nat → (Z.to_nat capacity ≤ fuel)%nat →
  run_and_test_lru_cache_impl fuel capacity
    = Exit (if decide (0 < capacity) then 0 else -1) ∅.
Proof.
  intros Hint Hmax Hfuel1 Hfuel2. unfold run_and_test_lru_cache_impl.
  destruct (construct capacity) as [e|c] eqn:Hc.
  { unfold construct in Hc. case_decide; [|done].
    by rewrite decide_False by lia. }
  assert (0 < capacity) as Hpos.
  { unfold construct in Hc. case_decide; [done|lia]. }
  rewrite decide_True by done.
  assert (sound capacity false c ∅) as Hs.
  { split_and!; [by eapply reach_construct| |done].
    unfold construct in Hc. case_decide; [done|]. by injection Hc as <-. }
  destruct (and_then_step (sound capacity false) (sound capacity true)
              (TEST_LOGGED fuel c ∅) (TEST_TIMED_AND_LOADED fuel 10000))
    as (c' & h' & -> & Hr & _).
  - by apply TEST_LOGGED_sound.
  - intros c1 h1. apply TEST_TIMED_AND_LOADED_sound; [done|done|lia|done].
  - by destruct (destroy_reachable c' h' Hr) as [c'' ->].
Qed.

Lemma run_and_test_passes_witness :
  is_int 2 ∧ 2 < INT_MAX ∧
  (Z.to_nat 10000 ≤ Z.to_nat 10000)%nat ∧
  (Z.to_nat 2 ≤ Z.to_nat 10000)%nat ∧
  run_and_test_lru_cache_impl (Z.to_nat 10000) 2
    = Exit (if decide (0 < 2) then 0 else -1) ∅.
Proof.
  assert (is_int 2) as H1 by (unfold is_int, INT_MIN, INT_MAX; lia).
  assert (2 < INT_MAX) as H2 by reflexivity.
  assert (Z.to_nat 10000 ≤ Z.to_nat 10000)%nat as H3 by lia.
  assert (Z.to_nat 2 ≤ Z.to_nat 10000)%nat as H4 by lia.
  split; [exact H1|]. split; [exact H2|]. split; [exact H3|].
  split; [exact H4|].
  exact (run_and_test_passes (Z.to_nat 10000) 2 H1 H2 H3 H4).
Defined.
